(** * Sports-Betting analyzer: [src/analyzer/run_v5_3.py]

    A shallow embedding of the edge-computation and selection pipeline of
    the script (odds conversion, cross-book median, edge, best offer per
    proposition, singles filter, greedy parlay builder, combined price),
    followed by the properties the specification states about it.

    Numbers.  The script computes with Python [float]s, IEEE binary64.
    The frame pipeline (lines 34-65 and the run) is modelled over exact
    rationals extended with [NaN], every operation returning the exact
    result in lowest terms: its statements are about which rows are
    selected, in which order and under which comparisons.  The scalar
    functions (lines 27-32 and 67-75) are modelled a second time in module
    [B64] over the kernel's binary64 floats, with rounding, infinities and
    the exceptions of [round]; the statements about their values are made
    there.

    Frames.  A data frame is the list of its rows and a row label is the
    position of the row (after the [merge] of line 40 the index is
    0..n-1).  [dropna], [groupby], [median], [idxmax], [loc],
    [sort_values] and [head] follow the behaviour pandas documents for
    them; rows that [sort_values] does not order keep their previous order.
    Loading the CSV, the column check and the printing of the report are
    not modelled. *)

From Stdlib Require Import QArith Qround Qabs Lqa ZArith Lia.
From Stdlib Require Import Ascii String.
From Stdlib Require Floats.
From stdpp Require Import base option list sorting gmap strings.

Open Scope Q_scope.

(** ** Python values *)

(** A Python [float]: a rational number or [nan]. *)
Inductive float : Type :=
  | Fin (q : Q)
  | NaN.

(** What a cell of the [price] column holds: a float (the column parsed as
    numeric; [nan] where the value is missing) or a string. *)
Inductive pyobj : Type :=
  | PyFloat (x : float)
  | PyStr (s : string).

(** A numeric cell. *)
Definition PyNum (x : Q) : pyobj := PyFloat (Fin x).

(** The exceptions the modelled code can raise. *)
Inductive exn : Type :=
  | ValueError
  | ZeroDivisionError
  | KeyError
  | OverflowError.

(** A computation that returns or raises. *)
Inductive exc (A : Type) : Type :=
  | Ok (a : A)
  | Raise (e : exn).
Arguments Ok {A} a.
Arguments Raise {A} e.

#[global] Instance exc_ret : MRet exc := fun A a => Ok a.

#[global] Instance exc_bind : MBind exc := fun A B k m =>
  match m with
  | Ok a => k a
  | Raise e => Raise e
  end.

(** [try: ... except: return d] with a bare [except]. *)
Definition try_except {A : Type} (m : exc A) (d : A) : A :=
  match m with
  | Ok a => a
  | Raise _ => d
  end.

(** [float(s)] on a string is Python's own parser; the development is
    parametric in it.  [None] stands for the [ValueError] it raises. *)
Class FloatOfStr : Type := float_of_str : string -> option float.

(** [float(o)] *)
Definition to_float `{FloatOfStr} (o : pyobj) : exc float :=
  match o with
  | PyFloat x => Ok x
  | PyStr s =>
      match float_of_str s with
      | Some x => Ok x
      | None => Raise ValueError
      end
  end.

(** ** Float arithmetic and comparisons *)

Definition fneg (a : float) : float :=
  match a with
  | Fin x => Fin (Qred (- x))
  | NaN => NaN
  end.

Definition fadd (a b : float) : float :=
  match a, b with
  | Fin x, Fin y => Fin (Qred (x + y))
  | _, _ => NaN
  end.

Definition fsub (a b : float) : float :=
  match a, b with
  | Fin x, Fin y => Fin (Qred (x - y))
  | _, _ => NaN
  end.

Definition fmul (a b : float) : float :=
  match a, b with
  | Fin x, Fin y => Fin (Qred (x * y))
  | _, _ => NaN
  end.

(** [a / b]: Python raises on a zero divisor, whatever the dividend. *)
Definition fdiv (a b : float) : exc float :=
  match b with
  | Fin y =>
      if Qeq_bool y 0 then Raise ZeroDivisionError
      else match a with
           | Fin x => Ok (Fin (Qred (x / y)))
           | NaN => Ok NaN
           end
  | NaN => Ok NaN
  end.

(** Comparisons; every comparison with [nan] is [False]. *)
Definition flt (a b : float) : bool :=
  match a, b with
  | Fin x, Fin y => negb (Qle_bool y x)
  | _, _ => false
  end.

Definition fle (a b : float) : bool :=
  match a, b with
  | Fin x, Fin y => Qle_bool x y
  | _, _ => false
  end.

Definition fgt (a b : float) : bool := flt b a.
Definition fge (a b : float) : bool := fle b a.

Definition isnan (a : float) : bool :=
  match a with
  | Fin _ => false
  | NaN => true
  end.

(** An integer literal used where a float is expected. *)
Definition lit (z : Z) : float := Fin (inject_Z z).

(** [round(x)] of a float: the nearest integer, halves to the even one;
    [ValueError] on [nan]. *)
Definition round_half_even (q : Q) : Z :=
  let f := Qfloor q in
  match Qcompare (q - inject_Z f) (1 # 2) with
  | Lt => f
  | Gt => (f + 1)%Z
  | Eq => if Z.even f then f else (f + 1)%Z
  end.

Definition py_round (a : float) : exc Z :=
  match a with
  | Fin q => Ok (round_half_even q)
  | NaN => Raise ValueError
  end.

(** ** Odds Converter (lines 27-32) *)

Definition american_to_prob `{FloatOfStr} (o : pyobj) : float :=
  try_except
    (o ← to_float o;
     if flt o (lit 0)
     then fdiv (fneg o) (fadd (fneg o) (lit 100))
     else fdiv (lit 100) (fadd o (lit 100)))
    NaN.

(** ** Band predicate (lines 43-47) *)

Definition in_band `{FloatOfStr} (o : pyobj) : bool :=
  try_except
    (o ← to_float o;
     Ok (fge o (lit (-115)) && fle o (lit 200)))
    false.

(** ** Combined price (lines 67-70) *)

(** The result is [None] (Python's [None]) or an [int]. *)
Definition prob_to_american (p : float) : exc (option Z) :=
  if fle p (lit 0) || fge p (lit 1) then Ok None
  else
    dec ← fdiv (lit 1) p;
    if fge dec (lit 2)
    then r ← py_round (fmul (fsub dec (lit 1)) (lit 100)); Ok (Some r)
    else x ← fdiv (lit (-100)) (fsub dec (lit 1));
         r ← py_round x; Ok (Some r).


(** ** Sorting *)

(** Stable insertion sort: [before y x] says that [y] goes strictly
    before [x]; elements neither of which goes before the other keep the
    order they had. *)
Section Sort.
Context {A : Type} (before : A -> A -> bool).

Fixpoint insert_sorted (x : A) (l : list A) : list A :=
  match l with
  | [] => [x]
  | y :: l' => if before y x then y :: insert_sorted x l' else x :: y :: l'
  end.

Definition isort (l : list A) : list A := foldr insert_sorted [] l.
End Sort.

(** [x] may stand before [y]: [y] does not go strictly before [x]. *)
Definition not_after {A : Type} (before : A -> A -> bool) (x y : A) : Prop :=
  before y x = false.

Definition Qlt_bool (x y : Q) : bool := negb (Qle_bool y x).

(** ** Offers (the columns required at line 20) *)

(** Text cells are [None] where pandas has a missing value. *)
Record Offer : Type := mkOffer {
  game_id : option string;
  week : option string;
  player : option string;
  team : option string;
  market : option string;
  selection : option string;
  line : option Q;
  price : pyobj;
  book : option string;
  kickoff_utc : option string
}.

Definition price_isna (o : pyobj) : bool :=
  match o with
  | PyFloat x => isnan x
  | PyStr _ => false
  end.

(** [df.dropna(subset=["player","market","selection","price","book"])] *)
Definition dropna_subset (df : list Offer) : list Offer :=
  filter (fun o => bool_decide (is_Some (player o)) && bool_decide (is_Some (market o))
                   && bool_decide (is_Some (selection o)) && negb (price_isna (price o))
                   && bool_decide (is_Some (book o))) df.

(** [str.upper] and [str.strip], on ASCII. *)
Definition upper_ascii (c : ascii) : ascii :=
  let n := nat_of_ascii c in
  if (97 <=? n)%nat && (n <=? 122)%nat then ascii_of_nat (n - 32) else c.

Definition is_space (c : ascii) : bool :=
  let n := nat_of_ascii c in
  (n =? 32)%nat || ((9 <=? n)%nat && (n <=? 13)%nat) || ((28 <=? n)%nat && (n <=? 31)%nat).

Fixpoint lstrip (l : list ascii) : list ascii :=
  match l with
  | c :: l' => if is_space c then lstrip l' else l
  | [] => []
  end.

Definition strip (l : list ascii) : list ascii := rev (lstrip (rev (lstrip l))).

Definition upper_strip (s : string) : string :=
  string_of_list_ascii (strip (upper_ascii <$> list_ascii_of_string s)).

(** Line 35. *)
Definition normalize_book (o : Offer) : Offer :=
  mkOffer (game_id o) (week o) (player o) (team o) (market o) (selection o)
          (line o) (price o) (upper_strip <$> book o) (kickoff_utc o).

(** ** Proposition keys ([gcols], line 38) *)

Record Key : Type := mkKey {
  k_player : option string;
  k_team : option string;
  k_market : option string;
  k_selection : option string;
  k_line : option Q;
  k_kickoff_utc : option string
}.

#[global] Instance Q_eq_dec : EqDecision Q.
Proof. solve_decision. Defined.

#[global] Instance Key_eq_dec : EqDecision Key.
Proof. solve_decision. Defined.

(** The key of an offer.  pandas groups a numeric column by value, so the
    line enters the key in lowest terms. *)
Definition key_of (o : Offer) : Key :=
  mkKey (player o) (team o) (market o) (selection o) (Qred <$> line o)
        (kickoff_utc o).

(** Some column of the key is missing. *)
Definition key_isna (k : Key) : bool :=
  negb (bool_decide (is_Some (k_player k)) && bool_decide (is_Some (k_team k))
        && bool_decide (is_Some (k_market k)) && bool_decide (is_Some (k_selection k))
        && bool_decide (is_Some (k_line k)) && bool_decide (is_Some (k_kickoff_utc k))).

(** Order of the group keys in a [groupby] result: column by column,
    missing values last. *)
Definition cmp_cell {A : Type} (cmp : A -> A -> comparison) (a b : option A) : comparison :=
  match a, b with
  | Some x, Some y => cmp x y
  | Some _, None => Lt
  | None, Some _ => Gt
  | None, None => Eq
  end.

Definition lex (c1 c2 : comparison) : comparison :=
  match c1 with
  | Eq => c2
  | _ => c1
  end.

Definition key_compare (a b : Key) : comparison :=
  lex (cmp_cell String.compare (k_player a) (k_player b))
 (lex (cmp_cell String.compare (k_team a) (k_team b))
 (lex (cmp_cell String.compare (k_market a) (k_market b))
 (lex (cmp_cell String.compare (k_selection a) (k_selection b))
 (lex (cmp_cell Qcompare (k_line a) (k_line b))
      (cmp_cell String.compare (k_kickoff_utc a) (k_kickoff_utc b)))))).

Definition key_ltb (a b : Key) : bool :=
  match key_compare a b with
  | Lt => true
  | _ => false
  end.

(** ** [groupby] *)

(** The group keys of a frame whose rows have the keys [ks]: each distinct
    key once, in sorted order; with [dropna] the keys with a missing column
    are left out. *)
Definition group_keys (dropna : bool) (ks : list Key) : list Key :=
  isort key_ltb
    (remove_dups (filter (fun k => negb dropna || negb (key_isna k)) ks)).

(** The rows of one group, each with its position in the frame, in frame
    order. *)
Definition group_rows {A : Type} (k : Key) (df : list (Key * A)) : list (nat * A) :=
  omap (fun ix => if decide (ix.2.1 = k) then Some (ix.1, ix.2.2) else None)
       (imap (fun i x => (i, x)) df).

(** [Series.median()]: missing values are skipped; [nan] when nothing is
    left. *)
Definition defined (l : list float) : list Q :=
  omap (fun v => match v with Fin x => Some x | NaN => None end) l.

Definition median (l : list float) : float :=
  let s := isort Qlt_bool (defined l) in
  let n := length s in
  if (n =? 0)%nat then NaN
  else if Nat.odd n then
    match s !! (n / 2)%nat with
    | Some a => Fin a
    | None => NaN
    end
  else
    match s !! (n / 2 - 1)%nat, s !! (n / 2)%nat with
    | Some a, Some b => Fin (Qred ((a + b) / 2))
    | _, _ => NaN
    end.

(** [idxmax()] of one group: the position of the first largest value that
    is not missing; [None] (pandas: [nan]) when every value is missing. *)
Definition idxmax_step (acc : option (nat * Q)) (iv : nat * float) : option (nat * Q) :=
  match iv.2 with
  | NaN => acc
  | Fin x =>
      match acc with
      | None => Some (iv.1, x)
      | Some (j, y) => if Qlt_bool y x then Some (iv.1, x) else acc
      end
  end.

Definition idxmax (vals : list (nat * float)) : option nat :=
  fst <$> foldl idxmax_step None vals.

(** ** The frame (lines 34-48) *)

Record Row : Type := mkRow {
  offer : Offer;
  book_prob : float;
  fair_prob : float;
  ev_pct : float;
  in_band_col : bool
}.

Definition row_key (r : Row) : Key := key_of (offer r).

Section Pipeline.
Context `{FloatOfStr}.

(** Lines 34-36: the valid offers with their [book_prob]. *)
Definition priced (raw : list Offer) : list (Offer * float) :=
  (fun o => (o, american_to_prob (price o)))
    <$> (normalize_book <$> dropna_subset raw).

Definition keyed (df : list (Offer * float)) : list (Key * float) :=
  (fun ob => (key_of ob.1, ob.2)) <$> df.

(** Line 39: the median of [book_prob] per key, missing keys kept. *)
Definition fair (df : list (Offer * float)) : list (Key * float) :=
  (fun k => (k, median (snd <$> group_rows k (keyed df))))
    <$> group_keys false (fst <$> keyed df).

(** The left join of line 40 for one row. *)
Definition fair_of (tbl : list (Key * float)) (k : Key) : float :=
  match list_find (fun kv => kv.1 = k) tbl with
  | Some (_, (_, v)) => v
  | None => NaN
  end.

(** Lines 40-48. *)
Definition frame (raw : list Offer) : list Row :=
  let df := priced raw in
  let tbl := fair df in
  (fun ob =>
     let fp := fair_of tbl (key_of ob.1) in
     mkRow ob.1 ob.2 fp (fmul (fsub fp ob.2) (lit 100)) (in_band (price ob.1)))
    <$> df.
End Pipeline.

(** ** Best-Offer Selector (lines 50-51) *)

Definition ev_keyed (df : list Row) : list (Key * float) :=
  (fun r => (row_key r, ev_pct r)) <$> df.

(** [df.groupby(gcols)["ev_pct"].idxmax()]: keys with a missing column are
    dropped, the default of [groupby]. *)
Definition idx (df : list Row) : list (option nat) :=
  (fun k => idxmax (group_rows k (ev_keyed df)))
    <$> group_keys true (fst <$> ev_keyed df).

(** [df.loc[labels]]: a label that is missing or not in the index raises
    [KeyError]. *)
Definition loc (df : list Row) (labels : list (option nat)) : exc (list Row) :=
  mapM (fun lbl =>
          match lbl with
          | Some i =>
              match df !! i with
              | Some r => Ok r
              | None => Raise KeyError
              end
          | None => Raise KeyError
          end) labels.

Definition best (df : list Row) : exc (list Row) := loc df (idx df).

(** ** Singles and the candidate pool (lines 53-57) *)

(** [sort_values("ev_pct", ascending=False)]: larger first, missing last. *)
Definition ev_before (y x : float) : bool :=
  match y, x with
  | Fin a, Fin b => Qlt_bool b a
  | Fin _, NaN => true
  | NaN, _ => false
  end.

Definition sort_values_desc (df : list Row) : list Row :=
  isort (fun y x => ev_before (ev_pct y) (ev_pct x)) df.

Definition singles (best : list Row) : list Row :=
  take 6 (sort_values_desc
            (filter (fun r => in_band_col r && fge (ev_pct r) (lit 2)) best)).

Record PoolRow : Type := mkPoolRow {
  row : Row;
  game_key : string
}.

(** [astype(str)] of a text cell. *)
Definition astype_str (c : option string) : string :=
  match c with
  | Some s => s
  | None => "nan"
  end.

Definition best_pool (best : list Row) : list PoolRow :=
  (fun r => mkPoolRow r (astype_str (game_id (offer r))))
    <$> take 40 (sort_values_desc
                   (filter (fun r => fge (ev_pct r) (lit 1)) best)).

(** ** Parlay Builder (lines 59-65) *)

Fixpoint build_parlay_loop (pool : list PoolRow) (n : Z)
    (chosen : list PoolRow) (seen : gset string) : list PoolRow :=
  match pool with
  | [] => chosen
  | r :: rest =>
      if decide (game_key r ∈ seen) then build_parlay_loop rest n chosen seen
      else
        let chosen' := chosen ++ [r] in
        let seen' := seen ∪ {[game_key r]} in
        if (Z.of_nat (length chosen') =? n)%Z then chosen'
        else build_parlay_loop rest n chosen' seen'
  end.

Definition build_parlay (pool : list PoolRow) (n : Z) : list PoolRow :=
  build_parlay_loop pool n [] ∅.

(** ** Parlay metrics (lines 72-75) *)

(** [np.prod] of the column goes through pandas, which skips the missing
    values. *)

Definition parlay_metrics (legs : list PoolRow) : exc (option float * option Z) :=
  match legs with
  | [] => Ok (None, None)
  | _ =>
      let ip := foldl fmul (lit 1)
                  (Fin <$> defined ((fun r => book_prob (row r)) <$> legs)) in
      us ← prob_to_american ip;
      Ok (Some ip, us)
  end.

(** ** The run (lines 34-80) *)

Record Report : Type := mkReport {
  rep_singles : list Row;
  rep_parlay3 : list PoolRow;
  rep_parlay4 : list PoolRow;
  rep_metrics3 : option float * option Z;
  rep_metrics4 : option float * option Z
}.

Definition run `{FloatOfStr} (raw : list Offer) : exc Report :=
  b ← best (frame raw);
  let pool := best_pool b in
  let parlay3 := build_parlay pool 3 in
  let parlay4 := build_parlay (drop 3 pool) 4 in
  m3 ← parlay_metrics parlay3;
  m4 ← parlay_metrics parlay4;
  Ok (mkReport (singles b) parlay3 parlay4 m3 m4).

(** ** Notions used in the statements *)

(** The values of one group, without their positions. *)
Definition select {A : Type} (k : Key) (kv : Key * A) : option A :=
  if decide (kv.1 = k) then Some kv.2 else None.

(** [r], at position [i], is the best offer of its proposition: its edge is
    defined, no offer of the proposition has a larger one, and those before
    it have a smaller one. *)
Definition best_of_key (df : list Row) (i : nat) (r : Row) : Prop :=
  df !! i = Some r /\
  exists x, ev_pct r = Fin x /\
    forall i' r' y, df !! i' = Some r' -> row_key r' = row_key r ->
                    ev_pct r' = Fin y -> y <= x /\ ((i' < i)%nat -> y < x).

(** The game keys of a pool. *)
Definition games (pool : list PoolRow) : gset string :=
  list_to_set (game_key <$> pool).

(** ** A concrete [float(s)] for the examples

    Plain decimal literals: optional surrounding blanks, an optional sign,
    digits with an optional fractional part.  Python reads more spellings
    (exponents, underscores, [inf], [nan]); the examples below use none of
    them, and the theorems hold for every parser. *)

Definition digit_of (c : ascii) : option Z :=
  let n := nat_of_ascii c in
  if (48 <=? n)%nat && (n <=? 57)%nat then Some (Z.of_nat (n - 48)) else None.

Fixpoint read_digits (l : list ascii) (acc : Z) (cnt : nat) : Z * nat * list ascii :=
  match l with
  | c :: l' =>
      match digit_of c with
      | Some d => read_digits l' (10 * acc + d)%Z (S cnt)
      | None => (acc, cnt, l)
      end
  | [] => (acc, cnt, [])
  end.

Definition parse_unsigned (l : list ascii) : option Q :=
  let '(ip, ni, rest) := read_digits l 0%Z 0%nat in
  match rest with
  | [] => if (ni =? 0)%nat then None else Some (inject_Z ip)
  | c :: rest' =>
      if Ascii.eqb c "."%char then
        let '(fp, nf, rest'') := read_digits rest' 0%Z 0%nat in
        match rest'' with
        | [] =>
            if (ni + nf =? 0)%nat then None
            else Some (Qred (inject_Z ip + inject_Z fp / inject_Z (10 ^ Z.of_nat nf)))
        | _ => None
        end
      else None
  end.

Definition parse_decimal (s : string) : option float :=
  match strip (list_ascii_of_string s) with
  | c :: l =>
      if Ascii.eqb c "-"%char then (fun q => Fin (Qred (- q))) <$> parse_unsigned l
      else if Ascii.eqb c "+"%char then Fin <$> parse_unsigned l
      else Fin <$> parse_unsigned (c :: l)
  | [] => None
  end.

#[global] Instance decimal_float_of_str : FloatOfStr := parse_decimal.

(** ** Example data

    The example of the specification: one proposition quoted by three books
    at -120, -105 and +105. *)
Definition quote_obj (who bk game : string) (o : pyobj) : Offer :=
  mkOffer (Some game) (Some "1") (Some who) (Some "KC") (Some "rec_yds")
          (Some "over") (Some (49 # 2)) o (Some bk) (Some "2025-09-07 17:00").

Definition quote (who bk game : string) (p : Z) : Offer :=
  quote_obj who bk game (PyNum (inject_Z p)).

Definition three_books (who game : string) : list Offer :=
  [quote who "BookA" game (-120); quote who "BookB" game (-105);
   quote who "BookC" game 105].

(** Two propositions of two games, quoted alike. *)
Definition two_props : list Offer :=
  three_books "Kelce" "g1" ++ three_books "Hill" "g2".

(** The best offer of each, as a candidate pool. *)
Definition leg_of (who game : string) : PoolRow :=
  mkPoolRow (mkRow (quote who "BOOKC" game 105) (Fin (20 # 41)) (Fin (21 # 41))
                   (Fin (100 # 41)) true) game.

Definition two_legs : list PoolRow := [leg_of "Hill" "g2"; leg_of "Kelce" "g1"].

(** One proposition with a single usable quote: the other book's price
    does not parse. *)
Definition lone_quote : list Offer :=
  [quote "Kelce" "BookA" "g1" (-120); quote_obj "Kelce" "BookB" "g1" (PyStr "EVEN")].

Definition lone_row : Row :=
  mkRow (quote "Kelce" "BOOKA" "g1" (-120)) (Fin (6 # 11)) (Fin (6 # 11)) (Fin 0) false.

(** One offer whose price does not parse. *)
Definition unpriced : list Offer :=
  [quote_obj "Kelce" "BookB" "g1" (PyStr "EVEN")].

(** A valid offer without a team. *)
Definition no_team : Offer :=
  mkOffer (Some "g1") (Some "1") (Some "Kelce") None (Some "rec_yds")
          (Some "over") (Some (49 # 2)) (PyNum 105) (Some "BookC")
          (Some "2025-09-07 17:00").

Definition no_team_row : Row :=
  mkRow (normalize_book no_team) (Fin (20 # 41)) (Fin (20 # 41)) (Fin 0) true.

(** Two propositions of one game: [three_books] on one player, two quotes
    on another; and the best offer of the second as a pool row. *)
Definition same_game : list Offer :=
  three_books "Kelce" "g1"
  ++ [quote "Hill" "BookA" "g1" (-110); quote "Hill" "BookB" "g1" 100].

Definition hill_leg : PoolRow :=
  mkPoolRow (mkRow (quote "Hill" "BOOKB" "g1" 100) (Fin (1 # 2)) (Fin (43 # 84))
                   (Fin (25 # 21)) true) "g1".

(** What the run prints for [two_props]. *)
Definition two_props_report : Report :=
  mkReport [row (leg_of "Hill" "g2"); row (leg_of "Kelce" "g1")]
           two_legs [] (Some (Fin (400 # 1681)), Some 320%Z) (None, None).

(** ** The greedy scan in the words of the specification

    "Scan the pool in its sorted order; maintain a set of game keys already
    used; accept a row if its game key has not yet been used; stop once the
    target leg count is reached (or the pool is exhausted)."  [n] counts the
    legs still to choose. *)
Fixpoint first_fit (pool : list PoolRow) (n : nat) (used : gset string) : list PoolRow :=
  match pool with
  | [] => []
  | r :: rest =>
      match n with
      | O => []
      | S n' =>
          if decide (game_key r ∈ used) then first_fit rest n used
          else r :: first_fit rest n' (used ∪ {[game_key r]})
      end
  end.

(** The price of [prob_to_american] on a rational, as a total function:
    it is used to show that the rational model of the run never raises in
    the price conversion. *)
Definition combined_price (p : Q) : option Z :=
  if Qle_bool p 0 || Qle_bool 1 p then None
  else
    let dec := 1 / p in
    if Qle_bool 2 dec then Some (round_half_even ((dec - 1) * 100))
    else Some (round_half_even (-100 / (dec - 1))).

(** The product of the legs' probabilities. *)
Definition product (ps : list Q) : Q := foldr Qmult 1 ps.

(** ** The converters in binary64

    The functions of lines 27-32 and 67-75 on IEEE binary64 numbers, the
    [float] of Python: the kernel's primitive floats, with their rounding,
    infinities, signed zeros and [nan]. *)
Module B64.
Import PrimFloat SpecFloat FloatOps.
Local Open Scope float_scope.

(** A Python value given to [float()]: a float, an [int], or a string. *)
Inductive pyobj : Type :=
  | PyFloat (x : float)
  | PyInt (z : Z)
  | PyStr (s : string).

(** [float(z)] of an [int]: the nearest float, halves to even; below 2^63
    the hardware conversion does it. *)
Definition of_Z (z : Z) : float :=
  if (Z.abs z <? 9223372036854775808)%Z then
    match z with
    | Z0 => zero
    | Zpos _ => of_uint63 (Uint63.of_Z z)
    | Zneg p => - of_uint63 (Uint63.of_Z (Zpos p))
    end
  else SF2Prim (binary_normalize prec emax z 0 false).

(** [float(s)] on a string is Python's own parser; the development is
    parametric in it.  [None] stands for the [ValueError] it raises. *)
Class FloatOfStr : Type := float_of_str : string -> option float.

(** [float(o)]; an [int] beyond the range of floats raises. *)
Definition to_float `{FloatOfStr} (o : pyobj) : exc float :=
  match o with
  | PyFloat x => Ok x
  | PyInt z => let x := of_Z z in if is_infinity x then Raise OverflowError else Ok x
  | PyStr s =>
      match float_of_str s with
      | Some x => Ok x
      | None => Raise ValueError
      end
  end.

(** [a / b] of Python floats: a zero divisor raises. *)
Definition fdiv (a b : float) : exc float :=
  if b =? 0 then Raise ZeroDivisionError else Ok (a / b).

(** Lines 27-32. *)
Definition american_to_prob `{FloatOfStr} (o : pyobj) : float :=
  try_except
    (o ← to_float o;
     if o <? 0 then fdiv (- o) (- o + 100) else fdiv 100 (o + 100))
    nan.


(** [m / 2^k] rounded to the nearest integer, halves to the even one. *)
Definition round_shift (m k : Z) : Z :=
  let q := Z.shiftr m k in
  let r := (m - Z.shiftl q k)%Z in
  match (r ?= Z.shiftl 1 (k - 1))%Z with
  | Lt => q
  | Gt => (q + 1)%Z
  | Eq => if Z.even q then q else (q + 1)%Z
  end.

(** [round(x)]: the integer nearest to the exact value of [x], halves to
    the even one; [OverflowError] on an infinity, [ValueError] on [nan]. *)
Definition py_round (x : float) : exc Z :=
  match Prim2SF x with
  | S754_nan => Raise ValueError
  | S754_infinity _ => Raise OverflowError
  | S754_zero _ => Ok 0%Z
  | S754_finite s m e =>
      let r := match e with
               | Zneg k => round_shift (Zpos m) (Zpos k)
               | _ => Z.shiftl (Zpos m) e
               end in
      Ok (if s then (- r)%Z else r)
  end.

(** Lines 67-70. *)
Definition prob_to_american (p : float) : exc (option Z) :=
  if (p <=? 0) || (1 <=? p) then Ok None
  else
    dec ← fdiv 1 p;
    if 2 <=? dec
    then r ← py_round ((dec - 1) * 100); Ok (Some r)
    else x ← fdiv (-100) (dec - 1);
         r ← py_round x; Ok (Some r).

(** The columns of a leg that lines 72-75 can read. *)
Record Leg : Type := mkLeg {
  book_prob : float;
  fair_prob : float
}.

(** [np.prod] of a pandas column: missing values are skipped, the others
    multiplied from left to right. *)
Definition np_prod (l : list float) : float :=
  foldl mul 1 (filter (fun x => is_nan x = false) l).

(** Lines 72-75. *)
Definition parlay_metrics (legs : list Leg) : exc (option float * option Z) :=
  match legs with
  | [] => Ok (None, None)
  | _ =>
      let ip := np_prod (book_prob <$> legs) in
      us ← prob_to_american ip;
      Ok (Some ip, us)
  end.

(** The decimal [k / n] as a float: what Python reads from the literal. *)
Definition decimal (k n : Z) : float := of_Z k / of_Z n.

(** *** A [float(s)] for the examples

    Plain decimal literals with at most 15 digits: an optional sign, digits
    with an optional fractional part.  Such a literal is the quotient of two
    integers that floats hold exactly, so one division rounds it as Python
    does.  Python reads more spellings (longer literals, exponents,
    underscores, [inf], [nan]); the examples use none of them, and the
    theorems hold for every parser. *)
Definition parse_unsigned (l : list ascii) : option float :=
  let '(ip, ni, rest) := read_digits l 0%Z 0%nat in
  match rest with
  | [] => if ((ni =? 0)%nat || (15 <? ni)%nat) then None else Some (of_Z ip)
  | c :: rest' =>
      if Ascii.eqb c "."%char then
        let '(fp, nf, rest'') := read_digits rest' 0%Z 0%nat in
        match rest'' with
        | [] =>
            if ((ni + nf =? 0)%nat || (15 <? ni + nf)%nat) then None
            else Some (decimal (ip * 10 ^ Z.of_nat nf + fp) (10 ^ Z.of_nat nf))
        | _ => None
        end
      else None
  end.

Definition parse_decimal (s : string) : option float :=
  match strip (list_ascii_of_string s) with
  | c :: l =>
      if Ascii.eqb c "-"%char then opp <$> parse_unsigned l
      else if Ascii.eqb c "+"%char then parse_unsigned l
      else parse_unsigned (c :: l)
  | [] => None
  end.

(** Two legs, priced +110 and +105: book probabilities 100/210 and
    100/205 as floats. *)
Definition plus110_plus105 : list Leg :=
  [mkLeg 0x1.e79e79e79e79ep-2 0.5; mkLeg 0x1.f3831f3831f38p-2 0.5].

(** *** Checks over a range of integers *)

(** [f] holds of the [2^k] integers from [z] on. *)
Fixpoint all2 (k : nat) (f : Z -> bool) (z : Z) : bool :=
  match k with
  | O => f z
  | S k' => if all2 k' f z then all2 k' f (z + 2 ^ Z.of_nat k')%Z else false
  end.

Section Checks.
Context `{FloatOfStr}.

Definition in_unit (p : float) : bool := (0 <? p) && (p <? 1).

Definition price_in_unit (z : Z) : bool :=
  (100000 <? z)%Z
  || (in_unit (american_to_prob (PyFloat (of_Z z)))
      && in_unit (american_to_prob (PyFloat (of_Z (- z))))).

Definition price_returns (z : Z) : bool :=
  match prob_to_american (american_to_prob (PyInt z)) with
  | Ok (Some z') => (z' =? z)%Z
  | _ => false
  end.

Definition prices_return (z : Z) : bool :=
  (100000 <? z)%Z || (price_returns z && price_returns (- 1 - z)).



End Checks.
End B64.

#[global] Instance b64_decimal_float_of_str : B64.FloatOfStr := B64.parse_decimal.

(** * Properties *)

(** ** Rationals and rounding *)

Lemma Qle_bool_false (x y : Q) : Qle_bool x y = false <-> y < x.
Proof.
  split; intros Hxy.
  - apply Qnot_le_lt. intros Hle. apply Qle_bool_iff in Hle. congruence.
  - destruct (Qle_bool x y) eqn:E; [|reflexivity].
    apply Qle_bool_iff in E. lra.
Qed.

Lemma Qeq_bool_false (x y : Q) : ~ x == y -> Qeq_bool x y = false.
Proof.
  intros Hne. destruct (Qeq_bool x y) eqn:E; [|reflexivity].
  apply Qeq_bool_iff in E. contradiction.
Qed.

#[global] Instance round_half_even_proper : Proper (Qeq ==> eq) round_half_even.
Proof.
  intros q1 q2 E. unfold round_half_even.
  rewrite (Qfloor_comp _ _ E).
  assert (E' : q1 - inject_Z (Qfloor q2) == q2 - inject_Z (Qfloor q2))
    by (rewrite E; reflexivity).
  rewrite (Qcompare_comp _ _ E' _ _ (Qeq_refl (1 # 2))). reflexivity.
Qed.

Lemma Qinv_pos_spec (p : Q) : 0 < p -> p * / p == 1 /\ 0 < / p.
Proof.
  intros Hp. split.
  - apply Qmult_inv_r. lra.
  - apply Qinv_lt_0_compat, Hp.
Qed.

(** Integer literals of the source, seen as rationals. *)
Ltac qlits :=
  change (inject_Z 0) with 0 in *;
  change (inject_Z 1) with 1 in *;
  change (inject_Z 2) with 2 in *;
  change (inject_Z 100) with 100 in *;
  change (inject_Z (-100)) with (-100) in *;
  change (inject_Z (-115)) with (- (115)) in *;
  change (inject_Z 200) with 200 in *.

Section Converter.
Context `{FloatOfStr}.

Lemma american_to_prob_neg (o : pyobj) (x : Q) :
  to_float o = Ok (Fin x) -> x < 0 ->
  exists q, american_to_prob o = Fin q /\ q == (- x) / (- x + 100).
Proof.
  intros Ho Hx. unfold american_to_prob. rewrite Ho. cbn. qlits.
  assert (E1 : Qle_bool 0 x = false) by (apply Qle_bool_false; exact Hx).
  rewrite E1. cbn.
  rewrite Qeq_bool_false.
  2:{ rewrite !Qred_correct. lra. }
  cbn. eexists. split; [reflexivity|].
  rewrite !Qred_correct. reflexivity.
Qed.

Lemma american_to_prob_nonneg (o : pyobj) (x : Q) :
  to_float o = Ok (Fin x) -> 0 <= x ->
  exists q, american_to_prob o = Fin q /\ q == 100 / (x + 100).
Proof.
  intros Ho Hx. unfold american_to_prob. rewrite Ho. cbn. qlits.
  assert (E1 : Qle_bool 0 x = true) by (apply Qle_bool_iff; exact Hx).
  rewrite E1. cbn.
  rewrite Qeq_bool_false.
  2:{ rewrite !Qred_correct. lra. }
  cbn. eexists. split; [reflexivity|].
  rewrite !Qred_correct. reflexivity.
Qed.
End Converter.

Lemma Qdiv_unit_interval (a d : Q) : 0 < a -> a < d -> 0 < a / d /\ a / d < 1.
Proof.
  intros Ha Hd. split.
  - apply Qlt_shift_div_l; lra.
  - apply Qlt_shift_div_r; lra.
Qed.

Lemma prob_to_american_low (p : Q) :
  0 < p -> p <= 1 # 2 ->
  prob_to_american (Fin p) = Ok (Some (round_half_even ((1 / p - 1) * 100))).
Proof.
  intros Hp Hhalf. destruct (Qinv_pos_spec p Hp) as [Hinv Hipos].
  unfold prob_to_american. cbn. qlits.
  assert (E1 : Qle_bool p 0 = false) by (apply Qle_bool_false; lra).
  assert (E2 : Qle_bool 1 p = false) by (apply Qle_bool_false; lra).
  rewrite E1, E2. cbn.
  rewrite Qeq_bool_false by lra. cbn. qlits.
  assert (E3 : Qle_bool 2 (Qred (1 / p)) = true).
  { apply Qle_bool_iff. rewrite Qred_correct. unfold Qdiv. nra. }
  rewrite E3. cbn. qlits. do 2 f_equal.
  apply round_half_even_proper. rewrite !Qred_correct. reflexivity.
Qed.

Lemma prob_to_american_high (p : Q) :
  1 # 2 < p -> p < 1 ->
  prob_to_american (Fin p) = Ok (Some (round_half_even (-100 / (1 / p - 1)))).
Proof.
  intros Hhalf Hp. assert (Hp0 : 0 < p) by lra.
  destruct (Qinv_pos_spec p Hp0) as [Hinv Hipos].
  unfold prob_to_american. cbn. qlits.
  assert (E1 : Qle_bool p 0 = false) by (apply Qle_bool_false; lra).
  assert (E2 : Qle_bool 1 p = false) by (apply Qle_bool_false; lra).
  rewrite E1, E2. cbn.
  rewrite Qeq_bool_false by lra. cbn. qlits.
  assert (E3 : Qle_bool 2 (Qred (1 / p)) = false).
  { apply Qle_bool_false. rewrite Qred_correct. unfold Qdiv. nra. }
  rewrite E3. cbn. qlits.
  rewrite Qeq_bool_false.
  2:{ rewrite !Qred_correct. unfold Qdiv. nra. }
  cbn. qlits. do 2 f_equal.
  apply round_half_even_proper. rewrite !Qred_correct. reflexivity.
Qed.

Section RoundTrip.
Context `{FloatOfStr}.

End RoundTrip.

Section OddsConverter.
Context `{FloatOfStr}.

Lemma american_to_prob_raise (o : pyobj) (e : exn) :
  to_float o = Raise e -> american_to_prob o = NaN.
Proof. intros Ho. unfold american_to_prob. rewrite Ho. reflexivity. Qed.

End OddsConverter.

(** ** Missing values in the aggregation *)

Lemma defined_skip_nan (l1 l2 : list float) :
  defined (l1 ++ NaN :: l2) = defined (l1 ++ l2).
Proof. unfold defined. rewrite !omap_app. reflexivity. Qed.

Lemma median_skip_nan (l1 l2 : list float) :
  median (l1 ++ NaN :: l2) = median (l1 ++ l2).
Proof. unfold median. rewrite defined_skip_nan. reflexivity. Qed.

Lemma idxmax_skip_nan (l1 l2 : list (nat * float)) (i : nat) :
  idxmax (l1 ++ (i, NaN) :: l2) = idxmax (l1 ++ l2).
Proof. unfold idxmax. rewrite !foldl_app. reflexivity. Qed.

Lemma edge_of_nan (fp : float) : fmul (fsub fp NaN) (lit 100) = NaN.
Proof. destruct fp; reflexivity. Qed.

(** C4: a price that parses to a number [p] is mapped to
    [(-p)/(-p+100)] when [p < 0] and to [100/(p+100)] when [p >= 0]; a price
    that does not parse is mapped to [nan], no exception escapes; that
    [nan] is skipped by the median of its group, the edge computed from it
    is [nan] again, fails both threshold comparisons and is skipped by
    [idxmax]. *)
Theorem odds_converter_formula `{FloatOfStr} (o : pyobj) :
  (forall p, to_float o = Ok (Fin p) -> p < 0 ->
     exists q, american_to_prob o = Fin q /\ q == (- p) / (- p + 100)) /\
  (forall p, to_float o = Ok (Fin p) -> 0 <= p ->
     exists q, american_to_prob o = Fin q /\ q == 100 / (p + 100)) /\
  (forall e, to_float o = Raise e ->
     american_to_prob o = NaN /\
     (forall l1 l2,
        median (l1 ++ american_to_prob o :: l2) = median (l1 ++ l2)) /\
     (forall fp,
        let ev := fmul (fsub fp (american_to_prob o)) (lit 100) in
        ev = NaN /\ fge ev (lit 2) = false /\ fge ev (lit 1) = false /\
        forall l1 l2 i, idxmax (l1 ++ (i, ev) :: l2) = idxmax (l1 ++ l2))).
Proof.
  split; [intros p; apply american_to_prob_neg|].
  split; [intros p; apply american_to_prob_nonneg|].
  intros e He. rewrite (american_to_prob_raise o e He).
  split; [reflexivity|]. split; [apply median_skip_nan|].
  intros fp ev. subst ev. rewrite edge_of_nan.
  repeat split. apply idxmax_skip_nan.
Qed.

Lemma odds_converter_formula_witness :
  (exists q, american_to_prob (PyStr "-120") = Fin q /\ q == (- -120) / (- -120 + 100)) /\
  (exists q, american_to_prob (PyStr "+105") = Fin q /\ q == 100 / (105 + 100)) /\
  american_to_prob (PyStr "EVEN") = NaN.
Proof.
  split; [|split].
  - apply (proj1 (odds_converter_formula (PyStr "-120")) (-120)); reflexivity.
  - apply (proj1 (proj2 (odds_converter_formula (PyStr "+105"))) 105);
      [reflexivity | discriminate].
  - apply (proj2 (proj2 (odds_converter_formula (PyStr "EVEN"))) ValueError).
    reflexivity.
Defined.

(** ** Parlay Builder *)

Lemma first_fit_zero (pool : list PoolRow) (used : gset string) :
  first_fit pool 0 used = [].
Proof. destruct pool; reflexivity. Qed.

Lemma first_fit_length (pool : list PoolRow) :
  forall (n : nat) (used : gset string), (length (first_fit pool n used) <= n)%nat.
Proof.
  induction pool as [|r rest IH]; intros n used; simpl; [lia|].
  destruct n as [|n']; simpl; [lia|].
  destruct (decide (game_key r ∈ used)); simpl.
  - apply IH.
  - specialize (IH n' (used ∪ {[game_key r]})). lia.
Qed.

Lemma first_fit_sublist (pool : list PoolRow) :
  forall (n : nat) (used : gset string), first_fit pool n used `sublist_of` pool.
Proof.
  induction pool as [|r rest IH]; intros n used; simpl; [constructor|].
  destruct n as [|n']; [apply sublist_nil_l|].
  destruct (decide (game_key r ∈ used)).
  - apply sublist_cons, IH.
  - apply sublist_skip, IH.
Qed.

Lemma first_fit_fresh (pool : list PoolRow) :
  forall (n : nat) (used : gset string) (r : PoolRow),
    r ∈ first_fit pool n used -> game_key r ∉ used.
Proof.
  induction pool as [|r0 rest IH]; intros n used r; simpl;
    [intros []%elem_of_nil|].
  destruct n as [|n']; [intros []%elem_of_nil|].
  destruct (decide (game_key r0 ∈ used)) as [Hin|Hout].
  - apply IH.
  - intros [->|Hr]%elem_of_cons; [exact Hout|].
    apply IH in Hr. set_solver.
Qed.

Lemma first_fit_NoDup (pool : list PoolRow) :
  forall (n : nat) (used : gset string), NoDup (game_key <$> first_fit pool n used).
Proof.
  induction pool as [|r0 rest IH]; intros n used; simpl; [constructor|].
  destruct n as [|n']; [constructor|].
  destruct (decide (game_key r0 ∈ used)) as [Hin|Hout]; [apply IH|].
  rewrite fmap_cons. constructor; [|apply IH].
  intros (r & Ek & Hr)%list_elem_of_fmap.
  apply first_fit_fresh in Hr. set_solver.
Qed.

Lemma build_parlay_loop_first_fit (n : Z) (pool : list PoolRow) :
  forall (chosen : list PoolRow) (seen : gset string) (m : nat),
    (Z.of_nat (length chosen) + Z.of_nat (S m))%Z = n ->
    build_parlay_loop pool n chosen seen = chosen ++ first_fit pool (S m) seen.
Proof.
  induction pool as [|r rest IH]; intros chosen seen m Hn; simpl.
  - rewrite app_nil_r. reflexivity.
  - destruct (decide (game_key r ∈ seen)) as [Hin|Hout]; [apply IH, Hn|].
    rewrite length_app. simpl.
    destruct (Z.eqb_spec (Z.of_nat (length chosen + 1)) n) as [E|E].
    + assert (m = 0%nat) by lia. subst m. rewrite first_fit_zero. reflexivity.
    + destruct m as [|m']; [lia|].
      rewrite (IH (chosen ++ [r]) _ m').
      * rewrite <- app_assoc. reflexivity.
      * rewrite length_app. simpl. lia.
Qed.

(** C6, as stated, fails for the target 0: the length is tested only after
    a leg is appended, so the scan never stops early and returns every row
    with a new game key. *)
Lemma build_parlay_zero_target :
  build_parlay two_legs 0 = two_legs /\
  ~ (Z.of_nat (length (build_parlay two_legs 0)) <= 0)%Z.
Proof. split; [reflexivity|]. vm_compute. intros Hle. apply Hle. reflexivity. Qed.

(** C6 (amended): for every pool and every target [n >= 1], [build_parlay]
    returns the legs of the first-fit scan of the pool in its given order
    (rows whose game key was already taken are skipped, the scan stops at [n]
    legs or at the end of the pool); no two legs share a game key, nor a game
    identifier when the key is the identifier as a string; the legs keep the
    order of the pool; and there are at most [n] of them. *)
Theorem build_parlay_first_fit (pool : list PoolRow) (n : Z) :
  (1 <= n)%Z ->
  build_parlay pool n = first_fit pool (Z.to_nat n) ∅ /\
  NoDup (game_key <$> build_parlay pool n) /\
  build_parlay pool n `sublist_of` pool /\
  (Z.of_nat (length (build_parlay pool n)) <= n)%Z /\
  ((forall r, r ∈ pool -> game_key r = astype_str (game_id (offer (row r)))) ->
   NoDup ((fun r => game_id (offer (row r))) <$> build_parlay pool n)).
Proof.
  intros Hn.
  assert (E : build_parlay pool n = first_fit pool (Z.to_nat n) ∅).
  { unfold build_parlay.
    destruct (Z.to_nat n) as [|m] eqn:Em; [lia|].
    rewrite (build_parlay_loop_first_fit n pool [] ∅ m); [reflexivity|].
    simpl length. lia. }
  rewrite E. split; [reflexivity|].
  split; [apply first_fit_NoDup|].
  split; [apply first_fit_sublist|].
  split.
  { pose proof (first_fit_length pool (Z.to_nat n) ∅). lia. }
  intros Hkey.
  apply (NoDup_fmap_1 astype_str). rewrite <- list_fmap_compose.
  erewrite list_fmap_ext; [apply (first_fit_NoDup pool (Z.to_nat n) ∅)|].
  intros i r Hr. simpl. symmetry. apply Hkey.
  apply list_elem_of_lookup_2 in Hr.
  eapply elem_of_sublist; [exact Hr|apply first_fit_sublist].
Qed.

Lemma build_parlay_first_fit_witness :
  build_parlay two_legs 3 = first_fit two_legs (Z.to_nat 3) ∅.
Proof. apply (build_parlay_first_fit two_legs 3). lia. Defined.

(** ** Sorting *)

Section SortFacts.
Context {A : Type} (before : A -> A -> bool).
Hypothesis before_asym : forall x y, before x y = true -> before y x = false.

Lemma insert_sorted_perm (x : A) (l : list A) : insert_sorted before x l ≡ₚ x :: l.
Proof.
  induction l as [|y l IH]; simpl; [reflexivity|].
  destruct (before y x); [|reflexivity].
  rewrite IH. apply Permutation_swap.
Qed.

Lemma isort_perm (l : list A) : isort before l ≡ₚ l.
Proof.
  induction l as [|x l IH]; simpl; [reflexivity|].
  rewrite insert_sorted_perm, IH. reflexivity.
Qed.

Lemma insert_sorted_hd (x y : A) (l : list A) :
  before y x = true -> HdRel (not_after before) y l -> HdRel (not_after before) y (insert_sorted before x l).
Proof.
  intros Hyx Hl. destruct l as [|z l]; simpl.
  - constructor. apply before_asym, Hyx.
  - destruct (before z x).
    + constructor. inversion Hl; assumption.
    + constructor. apply before_asym, Hyx.
Qed.

Lemma insert_sorted_sorted (x : A) (l : list A) :
  Sorted (not_after before) l -> Sorted (not_after before) (insert_sorted before x l).
Proof.
  induction l as [|y l IH]; intros Hl; simpl.
  - repeat constructor.
  - inversion Hl as [|? ? Hs Hh]; subst.
    destruct (before y x) eqn:E.
    + constructor; [apply IH, Hs|]. apply insert_sorted_hd; assumption.
    + constructor; [exact Hl|]. constructor. exact E.
Qed.

Lemma isort_sorted (l : list A) : Sorted (not_after before) (isort before l).
Proof.
  induction l as [|x l IH]; simpl; [constructor|].
  apply insert_sorted_sorted, IH.
Qed.
End SortFacts.

Lemma Sorted_weaken {A : Type} (R R' : A -> A -> Prop) (P : A -> Prop) (l : list A) :
  (forall a b, P a -> P b -> R a b -> R' a b) ->
  Forall P l -> Sorted R l -> Sorted R' l.
Proof.
  intros HR HP Hs. induction Hs as [|x l Hs IH Hh]; [constructor|].
  apply Forall_cons in HP as [Hx Hl].
  constructor; [apply IH, Hl|].
  destruct Hh as [|y l' Hxy]; constructor.
  apply Forall_cons in Hl as [Hy _]. apply HR; assumption.
Qed.

Lemma ev_before_asym (x y : float) : ev_before x y = true -> ev_before y x = false.
Proof.
  destruct x as [a|], y as [b|]; simpl; try reflexivity; try discriminate.
  unfold Qlt_bool. intros Hab. apply negb_true_iff, Qle_bool_false in Hab.
  apply negb_false_iff, Qle_bool_iff. lra.
Qed.

Lemma fge_trans (a b c : float) : fge a b = true -> fge b c = true -> fge a c = true.
Proof.
  destruct a, b, c; simpl; try discriminate.
  rewrite !Qle_bool_iff. intros ? ?. lra.
Qed.

(** ** Best offers are rows of the frame *)

Lemma loc_nil (df : list Row) : loc df [] = Ok [].
Proof. reflexivity. Qed.

Lemma loc_cons (df : list Row) (lbl : option nat) (labels : list (option nat)) :
  loc df (lbl :: labels) =
  match lbl with
  | Some i =>
      match df !! i with
      | Some r =>
          match loc df labels with
          | Ok rs => Ok (r :: rs)
          | Raise e => Raise e
          end
      | None => Raise KeyError
      end
  | None => Raise KeyError
  end.
Proof.
  unfold loc. simpl. destruct lbl as [i|]; [|reflexivity].
  destruct (df !! i); [|reflexivity]. simpl.
  destruct (mapM _ labels); reflexivity.
Qed.

Lemma loc_Ok (df : list Row) (labels : list (option nat)) (b : list Row) :
  loc df labels = Ok b ->
  Forall2 (fun lbl r => exists i, lbl = Some i /\ df !! i = Some r) labels b.
Proof.
  revert b. induction labels as [|lbl labels IH]; intros b.
  - rewrite loc_nil. intros [= <-]. constructor.
  - rewrite loc_cons. destruct lbl as [i|]; [|discriminate].
    destruct (df !! i) as [r|] eqn:Ei; [|discriminate].
    destruct (loc df labels) as [rs|e]; [|discriminate].
    intros [= <-]. constructor; [|apply IH; reflexivity].
    exists i. split; [reflexivity|exact Ei].
Qed.

Lemma best_rows (df b : list Row) (r : Row) :
  best df = Ok b -> r ∈ b -> r ∈ df.
Proof.
  intros Hb Hr. apply loc_Ok in Hb.
  apply list_elem_of_lookup in Hr as [j Hj].
  destruct (Forall2_lookup_r _ _ _ _ _ Hb Hj) as (lbl & _ & i & _ & Hi).
  apply list_elem_of_lookup_2 in Hi. exact Hi.
Qed.

(** ** Band predicate *)

Lemma in_band_true `{FloatOfStr} (o : pyobj) :
  in_band o = true ->
  exists x, to_float o = Ok (Fin x) /\ - (115) <= x /\ x <= 200.
Proof.
  unfold in_band. destruct (to_float o) as [[x|]|e]; simpl; try discriminate.
  intros [H1 H2]%andb_true_iff. exists x. split; [reflexivity|].
  apply Qle_bool_iff in H1, H2. qlits. split; assumption.
Qed.

Lemma frame_in_band `{FloatOfStr} (raw : list Offer) (r : Row) :
  r ∈ frame raw -> in_band_col r = in_band (price (offer r)).
Proof.
  unfold frame. intros (ob & -> & _)%list_elem_of_fmap. reflexivity.
Qed.

(** ** Singles *)

Lemma singles_eligible (b : list Row) (r : Row) :
  r ∈ singles b -> r ∈ b /\ in_band_col r = true /\ fge (ev_pct r) (lit 2) = true.
Proof.
  unfold singles, sort_values_desc. intros Hr.
  apply elem_of_take in Hr as (i & Hi & _). apply list_elem_of_lookup_2 in Hi.
  rewrite isort_perm in Hi. apply list_elem_of_filter in Hi as [He Hb].
  apply Is_true_true, andb_true_iff in He. destruct He. repeat split; assumption.
Qed.

Lemma fge_two (v : float) : fge v (lit 2) = true -> exists e, v = Fin e /\ 2 <= e.
Proof.
  destruct v as [e|]; simpl; [|discriminate].
  intros He%Qle_bool_iff. exists e. split; [reflexivity|exact He].
Qed.

Lemma singles_sorted (b : list Row) :
  StronglySorted (fun r1 r2 => fge (ev_pct r1) (ev_pct r2) = true) (singles b).
Proof.
  unfold singles. set (l := sort_values_desc _).
  assert (Hs : StronglySorted (fun r1 r2 => fge (ev_pct r1) (ev_pct r2) = true) l).
  { apply Sorted_StronglySorted.
    { intros r1 r2 r3. apply fge_trans. }
    subst l. unfold sort_values_desc.
    eapply (Sorted_weaken _ _ (fun r => exists e, ev_pct r = Fin e)).
    3:{ apply isort_sorted. intros x y. apply ev_before_asym. }
    - intros r1 r2 [e1 E1] [e2 E2]. unfold not_after. rewrite E1, E2. simpl.
      unfold Qlt_bool. intros Hle%negb_false_iff. exact Hle.
    - apply Forall_forall. intros r Hr. rewrite isort_perm in Hr.
      apply list_elem_of_filter in Hr as [He _].
      apply Is_true_true, andb_true_iff in He as [_ He].
      apply fge_two in He as (e & Ee & _). exists e. exact Ee. }
  rewrite <- (take_drop 6 l) in Hs. apply StronglySorted_app_1_l in Hs. exact Hs.
Qed.

Lemma run_Ok `{FloatOfStr} (raw : list Offer) (rep : Report) :
  run raw = Ok rep ->
  exists b, best (frame raw) = Ok b /\ rep_singles rep = singles b /\
            rep_parlay3 rep = build_parlay (best_pool b) 3 /\
            rep_parlay4 rep = build_parlay (drop 3 (best_pool b)) 4.
Proof.
  unfold run. destruct (best (frame raw)) as [b|e]; simpl; [|discriminate].
  destruct (parlay_metrics (build_parlay (best_pool b) 3)); simpl; [|discriminate].
  destruct (parlay_metrics (build_parlay (drop 3 (best_pool b)) 4)); simpl;
    [|discriminate].
  intros [= <-]. exists b. repeat split; reflexivity.
Qed.

(** C5, as stated, fails on two propositions quoted alike: both best offers
    qualify with the same edge, so the list is not strictly descending. *)
Lemma singles_tie :
  run two_props = Ok two_props_report /\
  ev_pct <$> rep_singles two_props_report = [Fin (100 # 41); Fin (100 # 41)] /\
  ~ StronglySorted (fun r1 r2 => fgt (ev_pct r1) (ev_pct r2) = true)
      (rep_singles two_props_report).
Proof.
  split; [vm_compute; reflexivity|]. split; [reflexivity|].
  intros Hs. apply StronglySorted_cons in Hs as [Hhd _].
  apply Forall_cons in Hhd as [Hlt _]. vm_compute in Hlt. discriminate.
Qed.

(** C5 (amended): whenever the run completes, every row of the singles
    output has a price that parses to a number in [-115, 200] and an edge of
    at least 2; there are at most 6 rows; they are in non-increasing order
    of edge (rows of equal edge may follow one another).  An input without
    rows completes with no singles. *)
Theorem singles_spec `{FloatOfStr} (raw : list Offer) (rep : Report) :
  run raw = Ok rep ->
  (forall r, r ∈ rep_singles rep ->
     exists x e, to_float (price (offer r)) = Ok (Fin x) /\
                 - (115) <= x /\ x <= 200 /\ ev_pct r = Fin e /\ 2 <= e) /\
  (length (rep_singles rep) <= 6)%nat /\
  StronglySorted (fun r1 r2 => fge (ev_pct r1) (ev_pct r2) = true) (rep_singles rep) /\
  exists rep0, run [] = Ok rep0 /\ rep_singles rep0 = [].
Proof.
  intros Hrun. destruct (run_Ok raw rep Hrun) as (b & Hb & -> & _).
  split.
  { intros r Hr. apply singles_eligible in Hr as (Hrb & Hband & Hev).
    pose proof (best_rows _ _ _ Hb Hrb) as Hrf.
    rewrite (frame_in_band raw r Hrf) in Hband.
    apply in_band_true in Hband as (x & Ex & Hlo & Hhi).
    apply fge_two in Hev as (e & Ee & He).
    exists x, e. repeat split; assumption. }
  split.
  { unfold singles. rewrite length_take. lia. }
  split; [apply singles_sorted|].
  eexists. split; reflexivity.
Qed.

Lemma singles_spec_witness :
  (length (rep_singles two_props_report) <= 6)%nat /\
  StronglySorted (fun r1 r2 => fge (ev_pct r1) (ev_pct r2) = true)
    (rep_singles two_props_report).
Proof.
  destruct (singles_spec two_props two_props_report) as (_ & Hlen & Hs & _).
  - vm_compute. reflexivity.
  - split; assumption.
Defined.

(** ** Parlay metrics *)

Lemma prob_to_american_combined_price (p : Q) :
  prob_to_american (Fin p) = Ok (combined_price p).
Proof.
  unfold combined_price.
  destruct (Qle_bool p 0) eqn:E0.
  { unfold prob_to_american. simpl. qlits. rewrite E0. reflexivity. }
  destruct (Qle_bool 1 p) eqn:E1.
  { unfold prob_to_american. simpl. qlits. rewrite E0, E1. reflexivity. }
  apply Qle_bool_false in E0, E1. simpl.
  destruct (Qinv_pos_spec p E0) as [Hinv Hipos].
  destruct (Qle_bool 2 (1 / p)) eqn:E2.
  - apply Qle_bool_iff in E2. apply prob_to_american_low; [exact E0|].
    unfold Qdiv in E2. nra.
  - apply Qle_bool_false in E2. apply prob_to_american_high; [|exact E1].
    unfold Qdiv in E2. nra.
Qed.

Lemma foldl_fmul_Fin (ps : list Q) :
  forall a : Q, exists ip, foldl fmul (Fin a) (Fin <$> ps) = Fin ip /\ ip == a * product ps.
Proof.
  induction ps as [|p ps IH]; intros a; simpl.
  - exists a. split; [reflexivity|]. ring.
  - destruct (IH (Qred (a * p))) as (ip & Eip & Hip).
    exists ip. split; [exact Eip|]. rewrite Hip, Qred_correct. ring.
Qed.

(** ** Consensus *)

Lemma group_rows_shift {A : Type} (k : Key) (df : list (Key * A)) :
  forall n : nat,
    snd <$> omap (fun ix : nat * (Key * A) =>
                    if decide (ix.2.1 = k) then Some (ix.1, ix.2.2) else None)
                 (imap (fun i x => ((n + i)%nat, x)) df)
    = omap (select k) df.
Proof.
  induction df as [|kv df IH]; intros n; [reflexivity|].
  assert (E : imap ((fun i x => ((n + i)%nat, x)) ∘ S) df
              = imap (fun i x => ((S n + i)%nat, x)) df).
  { apply imap_ext. intros i x _. simpl. f_equal. lia. }
  change (omap (select k) (kv :: df))
    with (match select k kv with
          | Some y => y :: omap (select k) df
          | None => omap (select k) df
          end).
  rewrite <- (IH (S n)), <- E. unfold select. simpl.
  destruct (decide (kv.1 = k)); reflexivity.
Qed.

Lemma group_rows_values {A : Type} (k : Key) (df : list (Key * A)) :
  snd <$> group_rows k df = omap (select k) df.
Proof. apply (group_rows_shift k df 0). Qed.

Lemma group_keys_elem (dropna : bool) (ks : list Key) (k : Key) :
  k ∈ group_keys dropna ks <-> k ∈ ks /\ (dropna = true -> key_isna k = false).
Proof.
  unfold group_keys. rewrite isort_perm, elem_of_remove_dups, list_elem_of_filter.
  destruct dropna, (key_isna k); simpl; intuition congruence.
Qed.

Lemma fair_of_fair `{FloatOfStr} (df : list (Offer * float)) (k : Key) :
  k ∈ fst <$> keyed df ->
  fair_of (fair df) k = median (omap (select k) (keyed df)).
Proof.
  intros Hk. unfold fair_of.
  set (P := fun kv : Key * float => kv.1 = k).
  assert (Hin : (k, median (snd <$> group_rows k (keyed df))) ∈ fair df).
  { unfold fair. apply list_elem_of_fmap. exists k. split; [reflexivity|].
    apply group_keys_elem. split; [exact Hk|discriminate]. }
  destruct (list_find_elem_of P _ _ Hin eq_refl) as [[j [k' v]] Hfind].
  rewrite Hfind. apply list_find_Some in Hfind as (Hj & Hk' & _).
  unfold P in Hk'. simpl in Hk'. subst k'.
  apply list_elem_of_lookup_2 in Hj. unfold fair in Hj.
  apply list_elem_of_fmap in Hj as (k'' & [= <- ->] & _).
  rewrite group_rows_values. reflexivity.
Qed.

Lemma frame_keyed `{FloatOfStr} (raw : list Offer) :
  keyed (priced raw) = (fun r => (row_key r, book_prob r)) <$> frame raw.
Proof.
  unfold frame, keyed. rewrite <- list_fmap_compose. reflexivity.
Qed.

Lemma frame_row `{FloatOfStr} (raw : list Offer) (r : Row) :
  r ∈ frame raw ->
  fair_prob r = median (omap (select (row_key r)) (keyed (priced raw))) /\
  ev_pct r = fmul (fsub (fair_prob r) (book_prob r)) (lit 100) /\
  book_prob r = american_to_prob (price (offer r)).
Proof.
  intros Hr. pose proof Hr as Hr'. unfold frame in Hr'.
  apply list_elem_of_fmap in Hr' as ([o bp] & -> & Hob). simpl.
  split; [|split; [reflexivity|]].
  - apply fair_of_fair. unfold keyed. rewrite <- list_fmap_compose.
    apply list_elem_of_fmap. exists (o, bp). split; [reflexivity|exact Hob].
  - unfold priced in Hob. apply list_elem_of_fmap in Hob as (o' & [= -> ->] & _).
    reflexivity.
Qed.

Lemma defined_app (l1 l2 : list float) : defined (l1 ++ l2) = defined l1 ++ defined l2.
Proof. apply omap_app. Qed.

Lemma median_singleton (l : list float) (b : Q) : defined l = [b] -> median l = Fin b.
Proof. intros E. unfold median. rewrite E. reflexivity. Qed.

Lemma group_others_nan (k : Key) (l : list Row) :
  (forall r', r' ∈ l -> row_key r' = k -> book_prob r' = NaN) ->
  defined (omap (select k) ((fun r => (row_key r, book_prob r)) <$> l)) = [].
Proof.
  induction l as [|r l IH]; intros Hl; [reflexivity|].
  rewrite fmap_cons.
  change (omap (select k) ((row_key r, book_prob r) :: ?t))
    with (match select k (row_key r, book_prob r) with
          | Some y => y :: omap (select k) t
          | None => omap (select k) t
          end).
  assert (IH' : defined (omap (select k) ((fun r => (row_key r, book_prob r)) <$> l)) = []).
  { apply IH. intros r' Hr'. apply Hl. right. exact Hr'. }
  unfold select at 1. simpl. destruct (decide (row_key r = k)) as [E|E]; [|exact IH'].
  rewrite (Hl r (list_elem_of_here _ _) E). exact IH'.
Qed.

Lemma edge_of_equal (b : Q) : fmul (fsub (Fin b) (Fin b)) (lit 100) = Fin 0.
Proof.
  simpl. f_equal. apply (Qred_complete _ 0). rewrite Qred_correct. ring.
Qed.

(** C9: when an offer with a defined book probability is the only one of
    its proposition key that has one (it is alone in its group, or the other
    offers of the group have unparsable prices), the fair probability
    annotated onto it is its own book probability and its edge is 0. *)
Theorem single_offer_fair `{FloatOfStr} (raw : list Offer) (i : nat) (r : Row) (b : Q) :
  frame raw !! i = Some r ->
  book_prob r = Fin b ->
  (forall j r', j <> i -> frame raw !! j = Some r' ->
                row_key r' = row_key r -> book_prob r' = NaN) ->
  fair_prob r = Fin b /\ ev_pct r = Fin 0.
Proof.
  intros Hi Hb Hothers.
  destruct (frame_row raw r (list_elem_of_lookup_2 _ _ _ Hi)) as (Hfair & Hev & _).
  assert (Ef : fair_prob r = Fin b).
  { rewrite Hfair, frame_keyed. apply median_singleton.
    rewrite <- (take_drop_middle _ _ _ Hi).
    rewrite fmap_app, fmap_cons, omap_app, defined_app.
    rewrite group_others_nan.
    2:{ intros r' (j & Hj & Hlt)%elem_of_take. apply (Hothers j); [lia|exact Hj]. }
    change (omap (select (row_key r)) ((row_key r, book_prob r) :: ?t))
      with (match select (row_key r) (row_key r, book_prob r) with
            | Some y => y :: omap (select (row_key r)) t
            | None => omap (select (row_key r)) t
            end).
    unfold select at 1. simpl. rewrite decide_True by reflexivity.
    rewrite Hb. change (defined (Fin b :: ?t)) with (b :: defined t).
    rewrite group_others_nan; [reflexivity|].
    intros r' (j & Hj)%list_elem_of_lookup. rewrite lookup_drop in Hj.
    apply (Hothers (S i + j)%nat); [lia|exact Hj]. }
  split; [exact Ef|].
  rewrite Hev, Ef, Hb. apply edge_of_equal.
Qed.

Lemma single_offer_fair_witness :
  fair_prob lone_row = Fin (6 # 11) /\ ev_pct lone_row = Fin 0.
Proof.
  apply (single_offer_fair lone_quote 0 lone_row (6 # 11)).
  - reflexivity.
  - reflexivity.
  - intros [|[|j]] r' Hj Hr' _.
    + contradiction.
    + vm_compute in Hr'. injection Hr' as <-. reflexivity.
    + discriminate.
Defined.

(** ** [idxmax] *)

Lemma idxmax_fold (vals : list (nat * float)) :
  match foldl idxmax_step None vals with
  | None => forall iv, iv ∈ vals -> iv.2 = NaN
  | Some (i, x) =>
      exists l1 l2, vals = l1 ++ (i, Fin x) :: l2 /\
        (forall j y, (j, Fin y) ∈ l1 -> y < x) /\
        (forall j y, (j, Fin y) ∈ l2 -> y <= x)
  end.
Proof.
  induction vals as [|[j v] l IH] using rev_ind; [intros iv []%elem_of_nil|].
  rewrite foldl_app. simpl. unfold idxmax_step at 1. simpl.
  destruct v as [y|].
  - destruct (foldl idxmax_step None l) as [[i x]|].
    + destruct IH as (l1 & l2 & -> & H1 & H2).
      unfold Qlt_bool. destruct (Qle_bool y x) eqn:E; simpl.
      * apply Qle_bool_iff in E. exists l1, (l2 ++ [(j, Fin y)]).
        split; [rewrite <- app_assoc; reflexivity|]. split; [exact H1|].
        intros j' y' [Hin|Hin]%elem_of_app; [apply (H2 j'), Hin|].
        apply list_elem_of_singleton in Hin. injection Hin as -> ->. exact E.
      * apply Qle_bool_false in E. exists (l1 ++ (i, Fin x) :: l2), [].
        split; [reflexivity|]. split; [|intros j' y' []%elem_of_nil].
        intros j' y' [Hin|Hin]%elem_of_app.
        { specialize (H1 j' y' Hin). lra. }
        apply elem_of_cons in Hin as [Hin|Hin].
        { injection Hin as -> ->. exact E. }
        specialize (H2 j' y' Hin). lra.
    + exists l, []. split; [reflexivity|]. split; [|intros j' y' []%elem_of_nil].
      intros j' y' Hin. specialize (IH _ Hin). discriminate.
  - destruct (foldl idxmax_step None l) as [[i x]|].
    + destruct IH as (l1 & l2 & -> & H1 & H2).
      exists l1, (l2 ++ [(j, NaN)]).
      split; [rewrite <- app_assoc; reflexivity|]. split; [exact H1|].
      intros j' y' [Hin|Hin]%elem_of_app; [apply (H2 j'), Hin|].
      apply list_elem_of_singleton in Hin. discriminate.
    + intros iv [Hin|Hin]%elem_of_app; [apply IH, Hin|].
      apply list_elem_of_singleton in Hin. subst iv. reflexivity.
Qed.

Lemma idxmax_None (vals : list (nat * float)) :
  idxmax vals = None -> forall iv, iv ∈ vals -> iv.2 = NaN.
Proof.
  unfold idxmax. pose proof (idxmax_fold vals) as Hf.
  destruct (foldl idxmax_step None vals) as [[i x]|]; [discriminate|].
  intros _. exact Hf.
Qed.

Lemma idxmax_Some (vals : list (nat * float)) (i : nat) :
  idxmax vals = Some i ->
  exists x l1 l2, vals = l1 ++ (i, Fin x) :: l2 /\
    (forall j y, (j, Fin y) ∈ l1 -> y < x) /\
    (forall j y, (j, Fin y) ∈ l2 -> y <= x).
Proof.
  unfold idxmax. pose proof (idxmax_fold vals) as Hf.
  destruct (foldl idxmax_step None vals) as [[i' x]|]; [|discriminate].
  intros [= <-]. exists x. exact Hf.
Qed.

(** ** The rows of a group *)

Section GroupRows.
Context {A : Type} (k : Key).

Local Notation "'rows_from' n df" :=
  (omap (fun ix : nat * (Key * A) =>
           if decide (ix.2.1 = k) then Some (ix.1, ix.2.2) else None)
        (imap (fun i x => ((n + i)%nat, x)) df))
  (at level 10, n at level 9, df at level 9, only parsing).

Lemma rows_from_cons (n : nat) (kv : Key * A) (df : list (Key * A)) :
  rows_from n (kv :: df)
  = (if decide (kv.1 = k) then [(n, kv.2)] else []) ++ rows_from (S n) df.
Proof.
  assert (E : imap ((fun i x => ((n + i)%nat, x)) ∘ S) df
              = imap (fun i x => ((S n + i)%nat, x)) df).
  { apply imap_ext. intros i x _. simpl. f_equal. lia. }
  rewrite <- E. simpl. rewrite Nat.add_0_r.
  destruct (decide (kv.1 = k)); reflexivity.
Qed.

Lemma rows_from_elem (df : list (Key * A)) :
  forall (n i : nat) (v : A),
    (i, v) ∈ rows_from n df <->
    exists i0, i = (n + i0)%nat /\ df !! i0 = Some (k, v).
Proof.
  induction df as [|kv df IH]; intros n i v.
  - simpl. split; [intros []%elem_of_nil|intros (i0 & _ & Hi0); discriminate].
  - rewrite rows_from_cons, elem_of_app, IH. split.
    + intros [Hhd|(i0 & -> & Hi0)].
      * destruct (decide (kv.1 = k)) as [E|E]; [|apply elem_of_nil in Hhd as []].
        apply list_elem_of_singleton in Hhd. injection Hhd as -> ->.
        exists 0%nat. split; [lia|]. simpl. destruct kv; simpl in *. congruence.
      * exists (S i0). split; [lia|exact Hi0].
    + intros ([|i0] & -> & Hi0).
      * left. simpl in Hi0. injection Hi0 as ->. simpl.
        rewrite decide_True by reflexivity. rewrite Nat.add_0_r. apply list_elem_of_here.
      * right. exists i0. split; [lia|exact Hi0].
Qed.

Lemma rows_from_ordered (df : list (Key * A)) :
  forall (n : nat) (l1 l2 : list (nat * A)) (i : nat) (v : A),
    rows_from n df = l1 ++ (i, v) :: l2 ->
    (forall j w, (j, w) ∈ l1 -> (j < i)%nat) /\ (forall j w, (j, w) ∈ l2 -> (i < j)%nat).
Proof.
  induction df as [|kv df IH]; intros n l1 l2 i v Hsplit.
  - simpl in Hsplit. destruct l1; discriminate.
  - rewrite rows_from_cons in Hsplit.
    destruct (decide (kv.1 = k)) as [E|E]; cbn [app] in Hsplit.
    + destruct l1 as [|[j0 w0] l1]; cbn [app] in Hsplit.
      * injection Hsplit as <- <- Hrest. split; [intros j w []%elem_of_nil|].
        intros j w Hj. rewrite <- Hrest in Hj.
        apply (rows_from_elem df (S n)) in Hj as (i0 & -> & _). lia.
      * injection Hsplit as <- <- Hrest.
        destruct (IH (S n) _ _ _ _ Hrest) as [H1 H2]. split; [|exact H2].
        intros j w [Hj|Hj]%elem_of_cons; [|apply (H1 j w), Hj].
        injection Hj as -> ->.
        assert (Hi : (i, v) ∈ l1 ++ (i, v) :: l2).
        { apply elem_of_app. right. apply list_elem_of_here. }
        rewrite <- Hrest in Hi.
        apply (rows_from_elem df (S n)) in Hi as (i0 & -> & _). lia.
    + apply (IH (S n) _ _ _ _ Hsplit).
Qed.
End GroupRows.

Lemma group_rows_elem {A : Type} (k : Key) (df : list (Key * A)) (i : nat) (v : A) :
  (i, v) ∈ group_rows k df <-> df !! i = Some (k, v).
Proof.
  unfold group_rows. rewrite (rows_from_elem k df 0 i v). split.
  - intros (i0 & -> & Hi0). exact Hi0.
  - intros Hi. exists i. split; [reflexivity|exact Hi].
Qed.

Lemma group_rows_ordered {A : Type} (k : Key) (df : list (Key * A))
    (l1 l2 : list (nat * A)) (i : nat) (v : A) :
  group_rows k df = l1 ++ (i, v) :: l2 ->
  (forall j w, (j, w) ∈ l1 -> (j < i)%nat) /\ (forall j w, (j, w) ∈ l2 -> (i < j)%nat).
Proof. apply (rows_from_ordered k df 0). Qed.

(** ** Best-Offer Selector *)

Lemma ev_keyed_lookup (df : list Row) (i : nat) (k : Key) (v : float) :
  ev_keyed df !! i = Some (k, v) <->
  exists r, df !! i = Some r /\ row_key r = k /\ ev_pct r = v.
Proof.
  unfold ev_keyed. rewrite list_lookup_fmap. destruct (df !! i) as [r|]; simpl.
  - split.
    + intros [= <- <-]. exists r. repeat split.
    + intros (r' & [= <-] & <- & <-). reflexivity.
  - split; [discriminate|intros (r' & Hr' & _); discriminate].
Qed.

Lemma idxmax_best (df : list Row) (k : Key) (i : nat) (r : Row) :
  idxmax (group_rows k (ev_keyed df)) = Some i -> df !! i = Some r ->
  row_key r = k /\ best_of_key df i r.
Proof.
  intros Hmax Hi.
  apply idxmax_Some in Hmax as (x & l1 & l2 & Hsplit & H1 & H2).
  destruct (group_rows_ordered _ _ _ _ _ _ Hsplit) as [O1 O2].
  assert (Hix : (i, Fin x) ∈ group_rows k (ev_keyed df)).
  { rewrite Hsplit. apply elem_of_app. right. apply list_elem_of_here. }
  apply group_rows_elem, ev_keyed_lookup in Hix as (r0 & Hr0 & Hk & Hx).
  assert (r0 = r) by congruence. subst r0.
  split; [exact Hk|]. split; [exact Hi|]. exists x. split; [exact Hx|].
  intros i' r' y Hi' Hk' Hy.
  assert (Hin : (i', Fin y) ∈ group_rows k (ev_keyed df)).
  { apply group_rows_elem, ev_keyed_lookup. exists r'.
    repeat split; [exact Hi'|congruence|exact Hy]. }
  rewrite Hsplit in Hin. apply elem_of_app in Hin as [Hin|Hin].
  - specialize (H1 _ _ Hin). split; [lra|intros _; exact H1].
  - apply elem_of_cons in Hin as [Hin|Hin].
    + injection Hin as -> ->. split; [lra|lia].
    + specialize (H2 _ _ Hin). specialize (O2 _ _ Hin). split; [exact H2|lia].
Qed.

Lemma ev_keyed_keys (df : list Row) : fst <$> ev_keyed df = row_key <$> df.
Proof. unfold ev_keyed. rewrite <- list_fmap_compose. reflexivity. Qed.

Lemma group_keys_NoDup (dropna : bool) (ks : list Key) : NoDup (group_keys dropna ks).
Proof.
  unfold group_keys. rewrite isort_perm. apply NoDup_remove_dups.
Qed.

(** Whenever the selection completes, it returns one row for each
    proposition key of the frame that has no missing column, in the order of
    the keys; the row is an offer of that proposition with the largest
    defined edge, the first such in frame order. *)
Lemma best_selects (df b : list Row) :
  best df = Ok b ->
  row_key <$> b = group_keys true (row_key <$> df) /\
  NoDup (row_key <$> b) /\
  (forall k, k ∈ row_key <$> b <-> k ∈ row_key <$> df /\ key_isna k = false) /\
  (forall r, r ∈ b -> exists i, best_of_key df i r).
Proof.
  intros Hb. apply loc_Ok in Hb. unfold idx in Hb. rewrite ev_keyed_keys in Hb.
  apply Forall2_fmap_l in Hb.
  assert (HF : Forall2 (fun k r => row_key r = k /\ exists i, best_of_key df i r)
                 (group_keys true (row_key <$> df)) b).
  { eapply Forall2_impl; [exact Hb|]. simpl.
    intros k r (i & Hmax & Hi).
    destruct (idxmax_best df k i r Hmax Hi) as [Hk Hbest].
    split; [exact Hk|]. exists i. exact Hbest. }
  assert (Ekeys : row_key <$> b = group_keys true (row_key <$> df)).
  { clear Hb. induction HF as [|k r ks rs [Hk _] _ IH]; [reflexivity|].
    rewrite fmap_cons, Hk, IH. reflexivity. }
  split; [exact Ekeys|]. rewrite Ekeys.
  split; [apply group_keys_NoDup|]. split.
  - intros k. rewrite group_keys_elem. intuition.
  - intros r (j & Hj)%list_elem_of_lookup.
    destruct (Forall2_lookup_r _ _ _ _ _ HF Hj) as (k & _ & _ & Hi). exact Hi.
Qed.

(** ** When the selection completes *)

Lemma loc_total (df : list Row) (labels : list (option nat)) :
  Forall (fun lbl => exists i r, lbl = Some i /\ df !! i = Some r) labels ->
  exists b, loc df labels = Ok b.
Proof.
  induction 1 as [|lbl labels (i & r & -> & Hi) _ [b IH]].
  - exists []. reflexivity.
  - exists (r :: b). rewrite loc_cons, Hi, IH. reflexivity.
Qed.

Lemma loc_missing_label (df : list Row) (labels : list (option nat)) :
  None ∈ labels -> (forall i, Some i ∈ labels -> is_Some (df !! i)) ->
  loc df labels = Raise KeyError.
Proof.
  induction labels as [|lbl labels IH]; intros Hin Hok; [apply elem_of_nil in Hin as []|].
  rewrite loc_cons. destruct lbl as [i|]; [|reflexivity].
  destruct (Hok i (list_elem_of_here _ _)) as [r ->].
  rewrite IH; [reflexivity| |].
  - apply elem_of_cons in Hin as [Hin|Hin]; [discriminate|exact Hin].
  - intros j Hj. apply Hok. right. exact Hj.
Qed.

Lemma idx_label (df : list Row) (lbl : option nat) :
  lbl ∈ idx df <->
  exists k, lbl = idxmax (group_rows k (ev_keyed df)) /\
            k ∈ row_key <$> df /\ key_isna k = false.
Proof.
  unfold idx. rewrite list_elem_of_fmap, ev_keyed_keys. split.
  - intros (k & -> & Hk). apply group_keys_elem in Hk as [Hk Hna].
    exists k. repeat split; [exact Hk|apply Hna; reflexivity].
  - intros (k & -> & Hk & Hna). exists k. split; [reflexivity|].
    apply group_keys_elem. split; [exact Hk|intros _; exact Hna].
Qed.

Lemma idx_label_valid (df : list Row) (i : nat) : Some i ∈ idx df -> is_Some (df !! i).
Proof.
  intros (k & Hmax & _)%idx_label. symmetry in Hmax.
  apply idxmax_Some in Hmax as (x & l1 & l2 & Hsplit & _).
  assert (Hix : (i, Fin x) ∈ group_rows k (ev_keyed df)).
  { rewrite Hsplit. apply elem_of_app. right. apply list_elem_of_here. }
  apply group_rows_elem, ev_keyed_lookup in Hix as (r & Hr & _). exists r. exact Hr.
Qed.

(** The selection completes when every proposition without a missing key
    column has an offer with a defined edge. *)
Lemma best_total (df : list Row) :
  (forall r, r ∈ df -> key_isna (row_key r) = false ->
     exists r' x, r' ∈ df /\ row_key r' = row_key r /\ ev_pct r' = Fin x) ->
  exists b, best df = Ok b.
Proof.
  intros Hdef. apply loc_total, Forall_forall. intros lbl Hlbl.
  destruct lbl as [i|].
  - destruct (idx_label_valid df i Hlbl) as [r Hr]. exists i, r. split; [reflexivity|exact Hr].
  - exfalso. apply idx_label in Hlbl as (k & Hmax & Hk & Hna). symmetry in Hmax.
    apply list_elem_of_fmap in Hk as (r & -> & Hr).
    destruct (Hdef r Hr Hna) as (r' & x & Hr' & Hk' & Hx).
    apply list_elem_of_lookup in Hr' as [i' Hi'].
    assert (Hin : (i', Fin x) ∈ group_rows (row_key r) (ev_keyed df)).
    { apply group_rows_elem, ev_keyed_lookup. exists r'. repeat split; assumption. }
    specialize (idxmax_None _ Hmax _ Hin). discriminate.
Qed.

(** It raises when some proposition without a missing key column has no
    offer with a defined edge. *)
Lemma best_aborts (df : list Row) (r : Row) :
  r ∈ df -> key_isna (row_key r) = false ->
  (forall r', r' ∈ df -> row_key r' = row_key r -> ev_pct r' = NaN) ->
  best df = Raise KeyError.
Proof.
  intros Hr Hna Hnan. apply loc_missing_label; [|apply idx_label_valid].
  apply idx_label. exists (row_key r). split; [|split; [|exact Hna]].
  - symmetry. pose proof (idxmax_fold (group_rows (row_key r) (ev_keyed df))) as Hf.
    unfold idxmax.
    destruct (foldl idxmax_step None _) as [[i x]|]; [|reflexivity].
    destruct Hf as (l1 & l2 & Hsplit & _).
    assert (Hix : (i, Fin x) ∈ group_rows (row_key r) (ev_keyed df)).
    { rewrite Hsplit. apply elem_of_app. right. apply list_elem_of_here. }
    apply group_rows_elem, ev_keyed_lookup in Hix as (r' & Hr' & Hk' & Hx).
    apply list_elem_of_lookup_2 in Hr'. rewrite (Hnan r' Hr' Hk') in Hx. discriminate.
  - apply list_elem_of_fmap. exists r. split; [reflexivity|exact Hr].
Qed.

(** ** Best-Offer Selector on the failing inputs *)

(** C1: a valid offer whose team is missing gets its fair probability and
    edge (the median is taken with [dropna=False]), but [groupby(gcols)] at
    line 50 drops its key, so the proposition has no best offer. *)
Theorem null_key_offer_dropped :
  dropna_subset [no_team] = [no_team] /\
  frame [no_team] = [no_team_row] /\
  key_isna (row_key no_team_row) = true /\
  best (frame [no_team]) = Ok [].
Proof. repeat split. Qed.

(** C2: when every edge of a proposition is undefined, [idxmax] has no
    position to return, the label is missing, and [df.loc] raises: the run
    stops. *)
Theorem undefined_group_aborts :
  ev_pct <$> frame unpriced = [NaN] /\
  idx (frame unpriced) = [None] /\
  best (frame unpriced) = Raise KeyError /\
  run unpriced = Raise KeyError.
Proof. repeat split. Qed.

(** ** When the run completes *)

Lemma isort_length {A : Type} (before : A -> A -> bool) (l : list A) :
  length (isort before l) = length l.
Proof. apply Permutation_length, isort_perm. Qed.

Lemma median_defined (l : list float) :
  defined l <> [] -> exists m, median l = Fin m.
Proof.
  intros Hne. unfold median.
  set (s := isort Qlt_bool (defined l)).
  assert (Hlen : (0 < length s)%nat).
  { subst s. rewrite isort_length. destruct (defined l); [contradiction|simpl; lia]. }
  destruct (Nat.eqb_spec (length s) 0) as [E|_]; [lia|].
  assert (Hhalf : (length s / 2 < length s)%nat) by (apply Nat.div_lt; lia).
  destruct (lookup_lt_is_Some_2 s (length s / 2) Hhalf) as [a Ha].
  destruct (Nat.odd (length s)).
  - rewrite Ha. exists a. reflexivity.
  - assert (Hprev : (length s / 2 - 1 < length s)%nat) by lia.
    destruct (lookup_lt_is_Some_2 s _ Hprev) as [a0 Ha0].
    rewrite Ha0, Ha. eexists. reflexivity.
Qed.

Lemma select_elem {A : Type} (k : Key) (l : list (Key * A)) (v : A) :
  (k, v) ∈ l -> v ∈ omap (select k) l.
Proof.
  intros Hin. apply list_elem_of_omap. exists (k, v). split; [exact Hin|].
  unfold select. simpl. rewrite decide_True by reflexivity. reflexivity.
Qed.

Lemma defined_elem (l : list float) (x : Q) : Fin x ∈ l -> defined l <> [].
Proof.
  intros Hin E.
  assert (Hx : x ∈ defined l).
  { apply list_elem_of_omap. exists (Fin x). split; [exact Hin|reflexivity]. }
  rewrite E in Hx. apply elem_of_nil in Hx as [].
Qed.

Section RunCompletes.
Context `{FloatOfStr}.

Lemma american_to_prob_defined (o : pyobj) (x : Q) :
  to_float o = Ok (Fin x) -> exists q, american_to_prob o = Fin q.
Proof.
  intros Ho. destruct (Qlt_le_dec x 0) as [Hneg|Hpos].
  - destruct (american_to_prob_neg o x Ho Hneg) as (q & Eq & _). exists q. exact Eq.
  - destruct (american_to_prob_nonneg o x Ho Hpos) as (q & Eq & _). exists q. exact Eq.
Qed.

(** An offer whose price parses has a defined edge. *)
Lemma frame_edge_defined (raw : list Offer) (r : Row) (x : Q) :
  r ∈ frame raw -> to_float (price (offer r)) = Ok (Fin x) ->
  exists e, ev_pct r = Fin e.
Proof.
  intros Hr Hx. destruct (frame_row raw r Hr) as (Hfair & Hev & Hbp).
  destruct (american_to_prob_defined _ _ Hx) as [q Hq]. rewrite Hq in Hbp.
  destruct (median_defined (omap (select (row_key r)) (keyed (priced raw)))) as [m Hm].
  { apply (defined_elem _ q), select_elem. rewrite frame_keyed.
    apply list_elem_of_fmap. exists r. split; [rewrite Hbp; reflexivity|exact Hr]. }
  rewrite Hev, Hfair, Hm, Hbp. eexists. reflexivity.
Qed.

(** A row with a defined edge has a defined book probability. *)
Lemma frame_book_prob_defined (raw : list Offer) (r : Row) (e : Q) :
  r ∈ frame raw -> ev_pct r = Fin e -> exists q, book_prob r = Fin q.
Proof.
  intros Hr He. destruct (frame_row raw r Hr) as (_ & Hev & _).
  rewrite Hev in He. destruct (book_prob r) as [q|]; [exists q; reflexivity|].
  destruct (fair_prob r); discriminate.
Qed.

Lemma best_pool_book_prob (raw : list Offer) (b : list Row) (l : PoolRow) :
  best (frame raw) = Ok b -> l ∈ best_pool b -> exists q, book_prob (row l) = Fin q.
Proof.
  intros Hb Hl. unfold best_pool in Hl.
  apply list_elem_of_fmap in Hl as (r & -> & Hr). simpl.
  apply elem_of_take in Hr as (i & Hi & _). apply list_elem_of_lookup_2 in Hi.
  unfold sort_values_desc in Hi. rewrite isort_perm in Hi.
  apply list_elem_of_filter in Hi as [He Hrb].
  apply Is_true_true in He. destruct (ev_pct r) as [e|] eqn:Ee; [|discriminate].
  apply (frame_book_prob_defined raw r e); [|exact Ee].
  apply (best_rows _ _ _ Hb Hrb).
Qed.
End RunCompletes.

Lemma parlay_metrics_total (legs : list PoolRow) :
  (forall l, l ∈ legs -> exists q, book_prob (row l) = Fin q) ->
  exists m, parlay_metrics legs = Ok m.
Proof.
  intros _. destruct legs as [|l legs]; [eexists; reflexivity|].
  unfold parlay_metrics.
  destruct (foldl_fmul_Fin (defined ((fun r => book_prob (row r)) <$> l :: legs)) 1)
    as (ip & Eip & _).
  unfold lit. change (inject_Z 1) with 1. rewrite Eip.
  rewrite prob_to_american_combined_price. eexists. reflexivity.
Qed.

Lemma build_parlay_loop_rows (pool : list PoolRow) (n : Z) :
  forall (chosen : list PoolRow) (seen : gset string) (l : PoolRow),
    l ∈ build_parlay_loop pool n chosen seen -> l ∈ chosen \/ l ∈ pool.
Proof.
  induction pool as [|r rest IH]; intros chosen seen l; simpl; [intros Hl; left; exact Hl|].
  destruct (decide (game_key r ∈ seen)).
  - intros [Hl|Hl]%IH; [left; exact Hl|right; right; exact Hl].
  - destruct (Z.of_nat (length (chosen ++ [r])) =? n)%Z.
    + intros [Hl|Hl]%elem_of_app; [left; exact Hl|].
      apply list_elem_of_singleton in Hl as ->. right. left.
    + intros [Hl|Hl]%IH; [|right; right; exact Hl].
      apply elem_of_app in Hl as [Hl|Hl]; [left; exact Hl|].
      apply list_elem_of_singleton in Hl as ->. right. left.
Qed.

Lemma build_parlay_rows (pool : list PoolRow) (n : Z) (l : PoolRow) :
  l ∈ build_parlay pool n -> l ∈ pool.
Proof.
  intros [Hl|Hl]%build_parlay_loop_rows; [apply elem_of_nil in Hl as []|exact Hl].
Qed.

(** The run completes, with a report, when every proposition without a
    missing key column has an offer whose price parses to a number. *)
Lemma run_completes `{FloatOfStr} (raw : list Offer) :
  (forall r, r ∈ frame raw -> key_isna (row_key r) = false ->
     exists r' x, r' ∈ frame raw /\ row_key r' = row_key r /\
                  to_float (price (offer r')) = Ok (Fin x)) ->
  exists rep, run raw = Ok rep.
Proof.
  intros Hparse.
  destruct (best_total (frame raw)) as [b Hb].
  { intros r Hr Hna. destruct (Hparse r Hr Hna) as (r' & x & Hr' & Hk & Hx).
    destruct (frame_edge_defined raw r' x Hr' Hx) as [e He].
    exists r', e. repeat split; assumption. }
  unfold run. rewrite Hb. simpl.
  destruct (parlay_metrics_total (build_parlay (best_pool b) 3)) as [m3 ->].
  { intros l Hl%build_parlay_rows. apply (best_pool_book_prob raw b l Hb Hl). }
  destruct (parlay_metrics_total (build_parlay (drop 3 (best_pool b)) 4)) as [m4 ->].
  { intros l Hl%build_parlay_rows. apply (best_pool_book_prob raw b l Hb).
    apply (elem_of_sublist _ _ _ Hl), sublist_drop. }
  simpl. eexists. reflexivity.
Qed.

(** It stops with [KeyError] when some proposition without a missing key
    column has only undefined edges. *)
Lemma run_aborts `{FloatOfStr} (raw : list Offer) (r : Row) :
  r ∈ frame raw -> key_isna (row_key r) = false ->
  (forall r', r' ∈ frame raw -> row_key r' = row_key r -> ev_pct r' = NaN) ->
  run raw = Raise KeyError.
Proof.
  intros Hr Hna Hnan. unfold run.
  rewrite (best_aborts (frame raw) r Hr Hna Hnan). reflexivity.
Qed.

(** ** Undefined edges in the rankings *)

(** In a frame sorted by edge, a row with an undefined edge is followed by
    such rows only: the undefined edges come last. *)
Lemma sort_values_desc_nan_last (df : list Row) (l1 l2 : list Row) (r r' : Row) :
  sort_values_desc df = l1 ++ r :: l2 -> ev_pct r = NaN -> r' ∈ l2 -> ev_pct r' = NaN.
Proof.
  intros Hsplit Hnan.
  pose proof (isort_sorted (fun y x => ev_before (ev_pct y) (ev_pct x))
                (fun x y => ev_before_asym (ev_pct x) (ev_pct y)) df) as Hs.
  fold (sort_values_desc df) in Hs. rewrite Hsplit in Hs. clear Hsplit.
  induction l1 as [|a l1 IH]; [|apply IH; inversion Hs; assumption].
  simpl in Hs. revert r Hnan Hs.
  induction l2 as [|b l2 IH]; intros r Hnan Hs; [intros []%elem_of_nil|].
  inversion Hs as [|? ? Hs' Hhd]; subst. inversion Hhd as [|? ? Hrb]; subst.
  assert (Hb : ev_pct b = NaN).
  { unfold not_after in Hrb. rewrite Hnan in Hrb.
    destruct (ev_pct b); [discriminate|reflexivity]. }
  intros [->|Hin]%elem_of_cons; [exact Hb|].
  apply (IH b Hb Hs' Hin).
Qed.

(** A row with an undefined edge passes neither threshold, whatever else
    the frame holds. *)
Lemma undefined_edge_filtered (b : list Row) (r : Row) :
  ev_pct r = NaN -> (r ∉ singles b) /\ (r ∉ row <$> best_pool b).
Proof.
  intros Hnan. split.
  - intros (_ & _ & Hev)%singles_eligible. rewrite Hnan in Hev. discriminate.
  - intros (l & -> & Hl)%list_elem_of_fmap.
    unfold best_pool in Hl. apply list_elem_of_fmap in Hl as (r0 & -> & Hr0).
    simpl in Hnan. apply elem_of_take in Hr0 as (i & Hi & _).
    apply list_elem_of_lookup_2 in Hi.
    unfold sort_values_desc in Hi. rewrite isort_perm in Hi.
    apply list_elem_of_filter in Hi as [He _].
    rewrite Hnan in He. exact He.
Qed.

(** ** The converters in binary64 *)

Lemma all2_spec (k : nat) (f : Z -> bool) :
  forall z0 : Z, B64.all2 k f z0 = true ->
    forall z : Z, (z0 <= z < z0 + 2 ^ Z.of_nat k)%Z -> f z = true.
Proof.
  induction k as [|k IH]; intros z0 Hall z Hz; simpl in Hall.
  - change (2 ^ Z.of_nat 0)%Z with 1%Z in Hz. assert (z = z0) by lia. subst z. exact Hall.
  - rewrite Nat2Z.inj_succ, Z.pow_succ_r in Hz by lia.
    destruct (B64.all2 k f z0) eqn:Hlow; [|discriminate].
    destruct (Z_lt_le_dec z (z0 + 2 ^ Z.of_nat k)) as [Hlt|Hge].
    + apply (IH z0 Hlow). lia.
    + apply (IH _ Hall). lia.
Qed.

Section B64Facts.
Import PrimFloat.
Context `{B64.FloatOfStr}.

Lemma b64_american_to_prob_ext (o o' : B64.pyobj) :
  B64.to_float o = B64.to_float o' -> B64.american_to_prob o = B64.american_to_prob o'.
Proof. unfold B64.american_to_prob. intros ->. reflexivity. Qed.

Lemma prices_in_unit_checked : B64.all2 17 B64.price_in_unit 1 = true.
Proof. vm_cast_no_check (eq_refl true). Qed.

Lemma prices_return_checked : B64.all2 17 B64.prices_return 100 = true.
Proof. vm_cast_no_check (eq_refl true). Qed.


Lemma b64_price_in_unit (z : Z) :
  (1 <= Z.abs z <= 100000)%Z ->
  B64.in_unit (B64.american_to_prob (B64.PyFloat (B64.of_Z z))) = true.
Proof.
  intros Hz.
  assert (Hchk : B64.price_in_unit (Z.abs z) = true).
  { apply (all2_spec _ _ _ prices_in_unit_checked). simpl. lia. }
  unfold B64.price_in_unit in Hchk.
  destruct (Z.ltb_spec 100000 (Z.abs z)) as [Hbig|_]; [lia|].
  simpl in Hchk. apply andb_prop in Hchk as [Hpos Hneg].
  destruct (Z.abs_spec z) as [[_ E]|[_ E]]; rewrite E in *.
  - exact Hpos.
  - rewrite Z.opp_involutive in Hneg. exact Hneg.
Qed.


Lemma b64_eqb_leb (x y : float) : (x =? y)%float = true -> (x <=? y)%float = true.
Proof.
  rewrite FloatAxioms.eqb_spec, FloatAxioms.leb_spec.
  unfold SpecFloat.SFeqb, SpecFloat.SFleb.
  destruct (SpecFloat.SFcompare _ _) as [[]|]; congruence.
Qed.

Lemma b64_in_unit (p : float) :
  B64.in_unit p = true <-> (0 <? p)%float = true /\ (p <? 1)%float = true.
Proof. unfold B64.in_unit. rewrite andb_true_iff. reflexivity. Qed.

End B64Facts.

Section B64Claims.
Import PrimFloat.

(** C3, counterexample: the price 0 reads as a number and is mapped to
    exactly 1.0, which is not below 1; so are nonzero prices too small or
    too large for the sum with 100 to tell them from it, such as 1e-20
    and -1e19. *)
Lemma odds_converter_price_zero :
  B64.to_float (B64.PyInt 0) = Ok 0%float /\
  B64.american_to_prob (B64.PyInt 0) = 1%float /\
  B64.american_to_prob (B64.PyFloat 0x1.79ca10c924223p-67%float) = 1%float /\
  B64.american_to_prob (B64.PyFloat (-1e19)%float) = 1%float /\
  ~ ((B64.american_to_prob (B64.PyInt 0) <? 1)%float = true).
Proof. repeat split. vm_compute. discriminate. Qed.

(** C3: for every price that reads as an integer between 1 and 100000 in
    magnitude, the output of the Odds Converter is a float strictly between
    0 and 1; the prices -100 and +100 are both mapped to exactly 0.5, and
    the price 0 to exactly 1.0. *)
Theorem odds_converter_range `{B64.FloatOfStr} :
  (forall (o : B64.pyobj) (z : Z),
     B64.to_float o = Ok (B64.of_Z z) -> (1 <= Z.abs z <= 100000)%Z ->
     (0 <? B64.american_to_prob o)%float = true /\
     (B64.american_to_prob o <? 1)%float = true) /\
  B64.american_to_prob (B64.PyInt (-100)) = 0.5%float /\
  B64.american_to_prob (B64.PyInt 100) = 0.5%float /\
  B64.american_to_prob (B64.PyInt 0) = 1%float.
Proof.
  split; [|repeat split].
  intros o z Ho Hz. apply b64_in_unit.
  rewrite (b64_american_to_prob_ext o (B64.PyFloat (B64.of_Z z)) Ho).
  apply b64_price_in_unit, Hz.
Qed.

Lemma odds_converter_range_witness :
  (0 <? B64.american_to_prob (B64.PyStr "-120"))%float = true /\
  (B64.american_to_prob (B64.PyStr "-120") <? 1)%float = true.
Proof.
  apply (proj1 odds_converter_range (B64.PyStr "-120") (-120)%Z).
  - vm_compute. reflexivity.
  - simpl. lia.
Defined.







Lemma b64_np_prod_defined (l : list float) :
  Forall (fun x => is_nan x = false) l -> B64.np_prod l = foldl mul 1%float l.
Proof.
  intros Hl. unfold B64.np_prod. f_equal.
  induction Hl as [|x l Hx _ IH]; [reflexivity|].
  rewrite filter_cons_True by exact Hx. rewrite IH. reflexivity.
Qed.

(** C7: for every nonempty leg set, [parlay_metrics] returns the product
    of the legs' own [book_prob] values, multiplied from left to right
    (missing values are skipped; the [fair_prob] column is not read), with
    the price of this product [p]: with [decimal = 1/p], it is
    [round((decimal - 1) * 100)] when [decimal >= 2] and
    [round(-100 / (decimal - 1))] otherwise, a division that raises when
    [decimal] is 1; there is no price for [p <= 0] or [p >= 1], and neither
    probability nor price for the empty leg set.  Each operation is the
    one of binary64, and [round] raises on an infinite value. *)
Theorem parlay_metrics_spec :
  (forall legs : list B64.Leg, legs <> [] ->
     let p := B64.np_prod (B64.book_prob <$> legs) in
     B64.parlay_metrics legs = (us ← B64.prob_to_american p; Ok (Some p, us)) /\
     (Forall (fun l => is_nan (B64.book_prob l) = false) legs ->
      p = foldl mul 1%float (B64.book_prob <$> legs)) /\
     (forall legs', B64.book_prob <$> legs' = B64.book_prob <$> legs ->
                    B64.parlay_metrics legs' = B64.parlay_metrics legs)) /\
  (forall p : float,
     ((p <=? 0)%float = true \/ (1 <=? p)%float = true ->
      B64.prob_to_american p = Ok None) /\
     ((p <=? 0)%float = false -> (1 <=? p)%float = false ->
      let decimal := (1 / p)%float in
      ((2 <=? decimal)%float = true ->
       B64.prob_to_american p
       = (r ← B64.py_round ((decimal - 1) * 100)%float; Ok (Some r))) /\
      ((2 <=? decimal)%float = false -> (decimal - 1 =? 0)%float = false ->
       B64.prob_to_american p
       = (r ← B64.py_round (-100 / (decimal - 1))%float; Ok (Some r))) /\
      ((2 <=? decimal)%float = false -> (decimal - 1 =? 0)%float = true ->
       B64.prob_to_american p = Raise ZeroDivisionError))) /\
  B64.parlay_metrics [] = Ok (None, None).
Proof.
  split; [|split; [|reflexivity]].
  - intros legs Hne p. split; [|split].
    + destruct legs as [|l legs]; [contradiction|]. reflexivity.
    + intros Hdef. apply b64_np_prod_defined, Forall_fmap. exact Hdef.
    + intros legs' E. destruct legs as [|l legs]; [contradiction|].
      destruct legs' as [|l' legs']; [discriminate|].
      unfold B64.parlay_metrics. rewrite E. reflexivity.
  - intros p. split.
    + intros Hout. unfold B64.prob_to_american.
      destruct Hout as [-> | ->]; [reflexivity|]. rewrite orb_true_r. reflexivity.
    + intros H0 H1 decimal.
      assert (Hz : (p =? 0)%float = false).
      { destruct (p =? 0)%float eqn:E; [|reflexivity].
        apply b64_eqb_leb in E. congruence. }
      unfold B64.prob_to_american, B64.fdiv.
      rewrite H0, H1, Hz. simpl. fold decimal. repeat split.
      * intros ->. reflexivity.
      * intros -> ->. reflexivity.
      * intros -> ->. reflexivity.
Qed.

Lemma parlay_metrics_spec_witness :
  B64.parlay_metrics B64.plus110_plus105
  = Ok (Some 0x1.dbb9d4970b004p-3%float, Some 331%Z).
Proof.
  destruct (proj1 parlay_metrics_spec B64.plus110_plus105) as (-> & _ & _).
  - discriminate.
  - reflexivity.
Defined.
End B64Claims.

(** * Further properties of the code *)

(** ** Prices, there and back, in binary64 *)

Section B64Extras.
Import PrimFloat.

(** X3: an integer price between 100 and 100000, or between -100000 and
    -101, comes back unchanged from the Odds Converter followed by the
    price conversion; the price -100 comes back as +100.  Far beyond this
    range the rounding of the floats shows: -1000000007 comes back as
    -1000000006. *)
Theorem price_prob_price `{B64.FloatOfStr} :
  (forall z : Z, (100 <= z <= 100000 \/ -100000 <= z < -100)%Z ->
     B64.prob_to_american (B64.american_to_prob (B64.PyInt z)) = Ok (Some z)) /\
  B64.prob_to_american (B64.american_to_prob (B64.PyInt (-100))) = Ok (Some 100%Z) /\
  B64.prob_to_american (B64.american_to_prob (B64.PyInt (-1000000007)))
  = Ok (Some (-1000000006)%Z).
Proof.
  split; [|split; reflexivity].
  assert (Hret : forall z, (100 <= z <= 100000 \/ -100000 <= z < -100)%Z ->
                           B64.price_returns z = true).
  { intros z Hz.
    assert (Hchk : forall y, (100 <= y <= 100000)%Z -> B64.prices_return y = true).
    { intros y Hy. apply (all2_spec _ _ _ prices_return_checked). simpl. lia. }
    destruct Hz as [Hz|Hz].
    - specialize (Hchk z Hz). unfold B64.prices_return in Hchk.
      destruct (Z.ltb_spec 100000 z); [lia|]. simpl in Hchk.
      apply andb_prop in Hchk as [Hpos _]. exact Hpos.
    - specialize (Hchk (- 1 - z)%Z). unfold B64.prices_return in Hchk.
      destruct (Z.ltb_spec 100000 (- 1 - z)); [lia|]. simpl in Hchk.
      replace (- 1 - (- 1 - z))%Z with z in Hchk by lia.
      apply andb_prop in Hchk as [_ Hneg]; [exact Hneg|lia]. }
  intros z Hz. specialize (Hret z Hz). unfold B64.price_returns in Hret.
  destruct (B64.prob_to_american _) as [[z'|]|]; try discriminate.
  apply Z.eqb_eq in Hret. subst z'. reflexivity.
Qed.

Lemma price_prob_price_witness :
  B64.prob_to_american (B64.american_to_prob (B64.PyInt (-120))) = Ok (Some (-120)%Z).
Proof. apply (proj1 price_prob_price (-120)%Z). right. lia. Defined.
End B64Extras.

(** ** Parlay Builder, for every target *)

Lemma games_nil : games [] = ∅.
Proof. reflexivity. Qed.

Lemma games_cons (r : PoolRow) (rest : list PoolRow) :
  games (r :: rest) = {[game_key r]} ∪ games rest.
Proof. reflexivity. Qed.

Lemma size_add_fresh (k : string) (Y U : gset string) :
  size ({[k]} ∪ Y ∖ (U ∪ {[k]})) = S (size (Y ∖ (U ∪ {[k]}))).
Proof.
  rewrite size_union; [|set_solver]. rewrite size_singleton. reflexivity.
Qed.

Lemma first_fit_count (pool : list PoolRow) :
  forall (n : nat) (used : gset string),
    length (first_fit pool n used) = Nat.min n (size (games pool ∖ used)).
Proof.
  induction pool as [|r rest IH]; intros n used.
  - rewrite games_nil.
    assert (E : (∅ : gset string) ∖ used = ∅) by set_solver.
    rewrite E, size_empty. simpl. lia.
  - destruct n as [|n']; [reflexivity|]. rewrite games_cons. simpl.
    destruct (decide (game_key r ∈ used)) as [Hin|Hout].
    + rewrite IH.
      assert (E : ({[game_key r]} ∪ games rest) ∖ used = games rest ∖ used)
        by set_solver.
      rewrite E. reflexivity.
    + simpl. rewrite IH.
      assert (E : ({[game_key r]} ∪ games rest) ∖ used
                  = {[game_key r]} ∪ games rest ∖ (used ∪ {[game_key r]})).
      { apply set_eq. intros k. destruct (decide (k = game_key r)); set_solver. }
      rewrite E, size_add_fresh. lia.
Qed.

Lemma build_parlay_loop_no_stop (n : Z) (pool : list PoolRow) :
  forall (chosen : list PoolRow) (seen : gset string) (m : nat),
    (n < Z.of_nat (length chosen) + 1)%Z -> (length pool <= m)%nat ->
    build_parlay_loop pool n chosen seen = chosen ++ first_fit pool m seen.
Proof.
  induction pool as [|r rest IH]; intros chosen seen m Hn Hm; simpl.
  - rewrite app_nil_r. reflexivity.
  - simpl in Hm. destruct m as [|m']; [lia|].
    destruct (decide (game_key r ∈ seen)) as [Hin|Hout].
    + apply IH; [exact Hn|lia].
    + rewrite length_app. simpl.
      destruct (Z.eqb_spec (Z.of_nat (length chosen + 1)) n) as [E|E]; [lia|].
      rewrite (IH (chosen ++ [r]) _ m'); [|rewrite length_app; simpl; lia|lia].
      rewrite <- app_assoc. reflexivity.
Qed.

(** Whatever the target, the legs are those of a first-fit scan: with the
    target as the bound when it is at least 1, without a bound otherwise. *)
Lemma build_parlay_scan (pool : list PoolRow) (n : Z) :
  build_parlay pool n
  = first_fit pool (if (1 <=? n)%Z then Z.to_nat n else length pool) ∅.
Proof.
  unfold build_parlay. destruct (Z.leb_spec 1 n) as [Hn|Hn].
  - destruct (Z.to_nat n) as [|m] eqn:Em; [lia|].
    rewrite (build_parlay_loop_first_fit n pool [] ∅ m); [reflexivity|simpl length; lia].
  - rewrite (build_parlay_loop_no_stop n pool [] ∅ (length pool)); [reflexivity| |lia].
    simpl. lia.
Qed.

Lemma games_size (pool : list PoolRow) : (size (games pool) <= length pool)%nat.
Proof.
  induction pool as [|r rest IH].
  - rewrite games_nil, size_empty. simpl. lia.
  - rewrite games_cons, size_union_alt, size_singleton.
    assert (size (games rest ∖ {[game_key r]}) <= size (games rest))%nat
      by (apply subseteq_size; set_solver).
    simpl. lia.
Qed.

(** X6: the number of legs is the target or the number of distinct games
    of the pool, whichever is smaller, when the target is at least 1; for a
    target of 0 or less the scan never stops early and returns one leg for
    every game of the pool. *)
Theorem build_parlay_count (pool : list PoolRow) (n : Z) :
  ((1 <= n)%Z ->
   Z.of_nat (length (build_parlay pool n)) = Z.min n (Z.of_nat (size (games pool)))) /\
  ((n <= 0)%Z -> length (build_parlay pool n) = size (games pool)).
Proof.
  rewrite build_parlay_scan, first_fit_count.
  assert (E : games pool ∖ ∅ = games pool) by set_solver. rewrite E.
  pose proof (games_size pool) as Hs.
  destruct (Z.leb_spec 1 n) as [Hn|Hn]; split; intros Hn'; lia.
Qed.

Lemma build_parlay_count_witness :
  Z.of_nat (length (build_parlay two_legs 3)) = Z.min 3 (Z.of_nat (size (games two_legs))) /\
  length (build_parlay two_legs 0) = size (games two_legs).
Proof.
  split.
  - apply (proj1 (build_parlay_count two_legs 3)). lia.
  - apply (proj2 (build_parlay_count two_legs 0)). lia.
Defined.

Lemma build_parlay_head (pool : list PoolRow) (n : Z) (r : PoolRow) (rest : list PoolRow) :
  pool = r :: rest -> exists legs, build_parlay pool n = r :: legs.
Proof.
  intros ->. rewrite build_parlay_scan.
  destruct (Z.leb_spec 1 n) as [Hn|Hn].
  - destruct (Z.to_nat n) as [|m] eqn:Em; [lia|]. simpl.
    rewrite decide_False by set_solver. eexists. reflexivity.
  - simpl. rewrite decide_False by set_solver. eexists. reflexivity.
Qed.

Lemma build_parlay_nil (pool : list PoolRow) (n : Z) :
  build_parlay pool n = [] <-> pool = [].
Proof.
  split.
  - destruct pool as [|r rest]; [reflexivity|].
    destruct (build_parlay_head (r :: rest) n r rest eq_refl) as [legs ->]. discriminate.
  - intros ->. reflexivity.
Qed.

(** X7: whatever the target, even 0 or less, the first row of a nonempty
    pool is the first leg; the parlay is empty only for the empty pool. *)
Theorem build_parlay_first_leg (pool : list PoolRow) (n : Z) :
  (forall r rest, pool = r :: rest -> exists legs, build_parlay pool n = r :: legs) /\
  (build_parlay pool n = [] <-> pool = []).
Proof.
  split; [intros r rest; apply build_parlay_head|apply build_parlay_nil].
Qed.

Lemma build_parlay_first_leg_witness :
  exists legs, build_parlay two_legs 0 = leg_of "Hill" "g2" :: legs.
Proof.
  apply (proj1 (build_parlay_first_leg two_legs 0) _ [leg_of "Kelce" "g1"]).
  reflexivity.
Defined.

Lemma first_fit_first_of_game (pool : list PoolRow) :
  forall (m : nat) (used : gset string) (r : PoolRow),
    r ∈ first_fit pool m used ->
    exists i, pool !! i = Some r /\
      forall j r', (j < i)%nat -> pool !! j = Some r' -> game_key r' <> game_key r.
Proof.
  induction pool as [|r0 rest IH]; intros m used r; simpl; [intros []%elem_of_nil|].
  destruct m as [|m']; [intros []%elem_of_nil|].
  destruct (decide (game_key r0 ∈ used)) as [Hin|Hout].
  - intros Hr. pose proof (first_fit_fresh _ _ _ _ Hr) as Hfresh.
    destruct (IH _ _ _ Hr) as (i & Hi & Hbefore).
    exists (S i). split; [exact Hi|].
    intros [|j] r' Hj Hr'; simpl in Hr'.
    + injection Hr' as <-. intros E. rewrite E in Hin. contradiction.
    + apply (Hbefore j); [lia|exact Hr'].
  - intros [->|Hr]%elem_of_cons.
    + exists 0%nat. split; [reflexivity|]. intros j r' Hj. lia.
    + pose proof (first_fit_fresh _ _ _ _ Hr) as Hfresh.
      destruct (IH _ _ _ Hr) as (i & Hi & Hbefore).
      exists (S i). split; [exact Hi|].
      intros [|j] r' Hj Hr'; simpl in Hr'.
      * injection Hr' as <-. intros E. apply Hfresh. rewrite <- E. set_solver.
      * apply (Hbefore j); [lia|exact Hr'].
Qed.

(** X8: whatever the target, every leg is the first row of its game in
    the pool: no row before it in the pool has its game key. *)
Theorem build_parlay_first_of_game (pool : list PoolRow) (n : Z) (r : PoolRow) :
  r ∈ build_parlay pool n ->
  exists i, pool !! i = Some r /\
    forall j r', (j < i)%nat -> pool !! j = Some r' -> game_key r' <> game_key r.
Proof. rewrite build_parlay_scan. apply first_fit_first_of_game. Qed.

Lemma build_parlay_first_of_game_witness :
  exists i, two_legs !! i = Some (leg_of "Kelce" "g1") /\
    forall j r', (j < i)%nat -> two_legs !! j = Some r' ->
                 game_key r' <> game_key (leg_of "Kelce" "g1").
Proof.
  apply (build_parlay_first_of_game two_legs 3). vm_compute.
  right. left.
Defined.

(** ** Candidate pool *)

Lemma top_rows_sorted (P : Row -> bool) (k : nat) (b : list Row) :
  (forall r, P r = true -> exists e, ev_pct r = Fin e) ->
  StronglySorted (fun r1 r2 => fge (ev_pct r1) (ev_pct r2) = true)
    (take k (sort_values_desc (filter P b))).
Proof.
  intros HP. set (l := sort_values_desc _).
  assert (Hs : StronglySorted (fun r1 r2 => fge (ev_pct r1) (ev_pct r2) = true) l).
  { apply Sorted_StronglySorted.
    { intros r1 r2 r3. apply fge_trans. }
    subst l. unfold sort_values_desc.
    eapply (Sorted_weaken _ _ (fun r => exists e, ev_pct r = Fin e)).
    3:{ apply isort_sorted. intros x y. apply ev_before_asym. }
    - intros r1 r2 [e1 E1] [e2 E2]. unfold not_after. rewrite E1, E2. simpl.
      unfold Qlt_bool. intros Hle%negb_false_iff. exact Hle.
    - apply Forall_forall. intros r Hr. rewrite isort_perm in Hr.
      apply list_elem_of_filter in Hr as [He _].
      apply HP, Is_true_true, He. }
  rewrite <- (take_drop k l) in Hs. apply StronglySorted_app_1_l in Hs. exact Hs.
Qed.

Lemma fge_one (v : float) : fge v (lit 1) = true -> exists e, v = Fin e /\ 1 <= e.
Proof.
  destruct v as [e|]; simpl; [|discriminate].
  intros He%Qle_bool_iff. exists e. split; [reflexivity|exact He].
Qed.

Lemma best_pool_sorted (b : list Row) :
  StronglySorted (fun l1 l2 => fge (ev_pct (row l1)) (ev_pct (row l2)) = true)
    (best_pool b).
Proof.
  unfold best_pool.
  apply (StronglySorted_fmap _ (fun r1 r2 => fge (ev_pct r1) (ev_pct r2) = true)).
  { intros r1 r2 Hr. exact Hr. }
  apply (top_rows_sorted (fun r => fge (ev_pct r) (lit 1))).
  intros r Hr. apply fge_one in Hr as (e & Ee & _). exists e. exact Ee.
Qed.

Lemma best_pool_row (b : list Row) (l : PoolRow) :
  l ∈ best_pool b ->
  row l ∈ b /\ fge (ev_pct (row l)) (lit 1) = true /\
  game_key l = astype_str (game_id (offer (row l))).
Proof.
  unfold best_pool. intros (r & -> & Hr)%list_elem_of_fmap. simpl.
  apply elem_of_take in Hr as (i & Hi & _). apply list_elem_of_lookup_2 in Hi.
  unfold sort_values_desc in Hi. rewrite isort_perm in Hi.
  apply list_elem_of_filter in Hi as [He Hb]. apply Is_true_true in He.
  repeat split; assumption.
Qed.

(** X9: the candidate pool has at most 40 rows; each is a best offer with
    an edge of at least 1, keyed by its game identifier as text; the rows are
    in non-increasing order of edge; and when there are at most 40 best
    offers, every best offer with an edge of at least 1 is in the pool. *)
Theorem best_pool_spec (b : list Row) :
  (length (best_pool b) <= 40)%nat /\
  (forall l, l ∈ best_pool b ->
     row l ∈ b /\ (exists e, ev_pct (row l) = Fin e /\ 1 <= e) /\
     game_key l = astype_str (game_id (offer (row l)))) /\
  StronglySorted (fun l1 l2 => fge (ev_pct (row l1)) (ev_pct (row l2)) = true)
    (best_pool b) /\
  ((length b <= 40)%nat ->
   forall r, r ∈ b -> fge (ev_pct r) (lit 1) = true -> r ∈ row <$> best_pool b).
Proof.
  split.
  { unfold best_pool. rewrite length_fmap, length_take. lia. }
  split.
  { intros l Hl. destruct (best_pool_row b l Hl) as (Hb & He & Hk).
    split; [exact Hb|]. split; [apply fge_one, He|exact Hk]. }
  split; [apply best_pool_sorted|].
  intros Hlen r Hr He. unfold best_pool.
  rewrite <- list_fmap_compose.
  change (row ∘ _) with (@id Row). rewrite list_fmap_id.
  rewrite take_ge.
  - unfold sort_values_desc. rewrite isort_perm.
    apply list_elem_of_filter. split; [apply Is_true_true, He|exact Hr].
  - unfold sort_values_desc. rewrite isort_length.
    pose proof (length_filter (fun r0 : Row => fge (ev_pct r0) (lit 1)) b). lia.
Qed.

Lemma best_pool_spec_witness :
  row (leg_of "Hill" "g2") ∈ row <$> best_pool (rep_singles two_props_report).
Proof.
  apply (proj2 (proj2 (proj2 (best_pool_spec (rep_singles two_props_report))))).
  - simpl. lia.
  - vm_compute. left.
  - reflexivity.
Defined.

Lemma StronglySorted_lookup_lt {A : Type} (R : relation A) (l : list A)
    (i j : nat) (x y : A) :
  StronglySorted R l -> l !! i = Some x -> l !! j = Some y -> (i < j)%nat -> R x y.
Proof.
  intros Hs Hi Hj Hlt. rewrite <- (take_drop_middle l i x Hi) in Hs.
  apply StronglySorted_app_1_r, StronglySorted_cons in Hs as [Hall _].
  rewrite Forall_forall in Hall. apply Hall.
  apply list_elem_of_lookup. exists (j - S i)%nat.
  rewrite lookup_drop. replace (S i + (j - S i))%nat with j by lia. exact Hj.
Qed.

(** X10: in the pool of a run, every leg has the largest edge among the
    pool rows of its game, whatever the target. *)
Theorem leg_best_of_game (b : list Row) (n : Z) (l l' : PoolRow) :
  l ∈ build_parlay (best_pool b) n -> l' ∈ best_pool b ->
  game_key l' = game_key l ->
  fge (ev_pct (row l)) (ev_pct (row l')) = true.
Proof.
  intros Hl Hl' Hk. rewrite build_parlay_scan in Hl.
  apply first_fit_first_of_game in Hl as (i & Hi & Hbefore).
  apply list_elem_of_lookup in Hl' as [j Hj].
  destruct (Nat.lt_trichotomy j i) as [Hlt|[->|Hgt]].
  - exfalso. apply (Hbefore j l' Hlt Hj Hk).
  - assert (l' = l) by congruence. subst l'.
    apply list_elem_of_lookup_2, best_pool_row in Hi as (_ & He & _).
    apply fge_one in He as (e & -> & _). simpl. apply Qle_bool_iff. lra.
  - apply (StronglySorted_lookup_lt _ _ i j l l' (best_pool_sorted b) Hi Hj Hgt).
Qed.

(** The two propositions of [same_game] are both candidates; the second
    one is skipped by the builder. *)
Lemma same_game_pool :
  best (frame same_game) = Ok [row hill_leg; row (leg_of "Kelce" "g1")] /\
  best_pool [row hill_leg; row (leg_of "Kelce" "g1")] = [leg_of "Kelce" "g1"; hill_leg] /\
  build_parlay [leg_of "Kelce" "g1"; hill_leg] 3 = [leg_of "Kelce" "g1"].
Proof. repeat split; vm_compute; reflexivity. Qed.

Lemma leg_best_of_game_witness :
  fge (ev_pct (row (leg_of "Kelce" "g1"))) (ev_pct (row hill_leg)) = true.
Proof.
  apply (leg_best_of_game [row hill_leg; row (leg_of "Kelce" "g1")] 3
           (leg_of "Kelce" "g1") hill_leg).
  - vm_compute. left.
  - vm_compute. right. left.
  - reflexivity.
Defined.

(** ** The two parlays of a run (lines 77-80) *)

Lemma best_NoDup (df b : list Row) : best df = Ok b -> NoDup b.
Proof.
  intros Hb. apply (NoDup_fmap_1 row_key). apply (best_selects df b Hb).
Qed.

Lemma best_pool_NoDup (df b : list Row) : best df = Ok b -> NoDup (best_pool b).
Proof.
  intros Hb%best_NoDup. unfold best_pool.
  apply NoDup_fmap_2_strong; [intros x y _ _ [= E _]; exact E|].
  eapply sublist_NoDup; [|apply sublist_take].
  unfold sort_values_desc. rewrite isort_perm. apply NoDup_filter, Hb.
Qed.

Lemma first_fit_distinct (pool : list PoolRow) :
  forall (m : nat) (used : gset string),
    NoDup (game_key <$> take m pool) ->
    (forall l, l ∈ take m pool -> game_key l ∉ used) ->
    first_fit pool m used = take m pool.
Proof.
  induction pool as [|r rest IH]; intros m used Hnd Hfresh; [destruct m; reflexivity|].
  destruct m as [|m']; [reflexivity|]. simpl in *.
  rewrite decide_False by (apply Hfresh; left).
  apply NoDup_cons in Hnd as [Hr Hnd]. f_equal. apply IH; [exact Hnd|].
  intros l Hl. assert (game_key l ∉ used) by (apply Hfresh; right; exact Hl).
  assert (game_key l <> game_key r).
  { intros E. apply Hr. rewrite <- E. apply list_elem_of_fmap. exists l. split; [reflexivity|exact Hl]. }
  set_solver.
Qed.

(** X11: in a completed run the 3-leg parlay has at most 3 legs and the
    4-leg parlay at most 4; the 3-leg parlay is empty exactly when the pool
    is, the 4-leg parlay exactly when the pool has at most 3 rows (so a
    4-leg table is never printed without a 3-leg one); and when the first
    three pool rows are of different games, the 3-leg parlay is these rows
    and the 4-leg parlay has none of them. *)
Theorem parlays_of_run `{FloatOfStr} (raw : list Offer) (rep : Report) :
  run raw = Ok rep ->
  exists b, best (frame raw) = Ok b /\
    (length (rep_parlay3 rep) <= 3)%nat /\ (length (rep_parlay4 rep) <= 4)%nat /\
    (rep_parlay3 rep = [] <-> best_pool b = []) /\
    (rep_parlay4 rep = [] <-> (length (best_pool b) <= 3)%nat) /\
    (NoDup (game_key <$> take 3 (best_pool b)) ->
     rep_parlay3 rep = take 3 (best_pool b) /\
     forall l, l ∈ rep_parlay4 rep -> l ∉ rep_parlay3 rep).
Proof.
  intros Hrun. destruct (run_Ok raw rep Hrun) as (b & Hb & _ & -> & ->).
  exists b. split; [exact Hb|].
  assert (S3 : build_parlay (best_pool b) 3 = first_fit (best_pool b) 3 ∅)
    by apply build_parlay_scan.
  assert (S4 : build_parlay (drop 3 (best_pool b)) 4
               = first_fit (drop 3 (best_pool b)) 4 ∅) by apply build_parlay_scan.
  split; [rewrite S3; apply first_fit_length|].
  split; [rewrite S4; apply first_fit_length|].
  split; [apply build_parlay_nil|].
  split.
  { rewrite build_parlay_nil. split.
    - intros E. apply (f_equal length) in E. rewrite length_drop in E. simpl in E. lia.
    - apply drop_ge. }
  intros Hnd.
  assert (E3 : build_parlay (best_pool b) 3 = take 3 (best_pool b)).
  { rewrite S3. apply first_fit_distinct; [exact Hnd|]. intros l _. set_solver. }
  split; [exact E3|]. rewrite E3, S4. intros l Hl Hl3.
  pose proof (elem_of_sublist _ _ _ Hl (first_fit_sublist (drop 3 (best_pool b)) 4 ∅)) as Hd.
  pose proof (best_pool_NoDup _ _ Hb) as Hpool.
  rewrite <- (take_drop 3 (best_pool b)) in Hpool.
  apply NoDup_app in Hpool as (_ & Hdisj & _). apply (Hdisj l Hl3).
  assumption.
Qed.

Lemma parlays_of_run_witness :
  exists b, best (frame two_props) = Ok b /\
    (length (rep_parlay3 two_props_report) <= 3)%nat /\
    (length (rep_parlay4 two_props_report) <= 4)%nat /\
    (rep_parlay3 two_props_report = [] <-> best_pool b = []) /\
    (rep_parlay4 two_props_report = [] <-> (length (best_pool b) <= 3)%nat) /\
    (NoDup (game_key <$> take 3 (best_pool b)) ->
     rep_parlay3 two_props_report = take 3 (best_pool b) /\
     forall l, l ∈ rep_parlay4 two_props_report -> l ∉ rep_parlay3 two_props_report).
Proof. apply (parlays_of_run two_props two_props_report). vm_compute. reflexivity. Defined.

(** ** The selection and the run: when they complete (lines 34-80) *)

Lemma loc_raises (df : list Row) (labels : list (option nat)) (e : exn) :
  loc df labels = Raise e -> e = KeyError.
Proof.
  induction labels as [|lbl labels IH]; [rewrite loc_nil; discriminate|].
  rewrite loc_cons. destruct lbl as [i|]; [|congruence].
  destruct (df !! i); [|congruence].
  destruct (loc df labels); [discriminate|]. intros [= <-]. apply IH. reflexivity.
Qed.

Lemma group_defined_dec (df : list Row) (k : Key) :
  (exists r' x, r' ∈ df /\ row_key r' = k /\ ev_pct r' = Fin x) \/
  (forall r', r' ∈ df -> row_key r' = k -> ev_pct r' = NaN).
Proof.
  destruct (Forall_Exists_dec (fun r' => row_key r' = k -> ev_pct r' = NaN)
              (fun r' => row_key r' = k /\ exists x, ev_pct r' = Fin x)) with (l := df)
    as [Hall|Hex].
  - intros r'. destruct (decide (row_key r' = k)) as [Ek|Nk].
    + destruct (ev_pct r') as [x|]; [right; split; [exact Ek|exists x; reflexivity]|].
      left. reflexivity.
    + left. intros Ek. contradiction.
  - right. intros r' Hr'. rewrite Forall_forall in Hall. apply Hall, Hr'.
  - left. apply Exists_exists in Hex as (r' & Hr' & Ek & x & Ex).
    exists r', x. repeat split; assumption.
Qed.

Lemma best_Ok_defined (df b : list Row) (r : Row) :
  best df = Ok b -> r ∈ df -> key_isna (row_key r) = false ->
  exists r' x, r' ∈ df /\ row_key r' = row_key r /\ ev_pct r' = Fin x.
Proof.
  intros Hb Hr Hna. destruct (group_defined_dec df (row_key r)) as [Hdef|Hnan];
    [exact Hdef|].
  rewrite (best_aborts df r Hr Hna Hnan) in Hb. discriminate.
Qed.

(** X12: the selection either returns or raises [KeyError], nothing else;
    it returns exactly when every proposition whose key has no missing
    column has at least one offer with a defined edge. *)
Theorem best_outcome (df : list Row) :
  ((exists b, best df = Ok b) <->
   (forall r, r ∈ df -> key_isna (row_key r) = false ->
      exists r' x, r' ∈ df /\ row_key r' = row_key r /\ ev_pct r' = Fin x)) /\
  (forall e, best df = Raise e -> e = KeyError).
Proof.
  split; [split|].
  - intros [b Hb] r. apply (best_Ok_defined df b r Hb).
  - apply best_total.
  - intros e. apply loc_raises.
Qed.

Lemma best_outcome_witness :
  exists r' x, r' ∈ rep_singles two_props_report /\
               row_key r' = row_key (row (leg_of "Hill" "g2")) /\ ev_pct r' = Fin x.
Proof.
  apply (proj1 (proj1 (best_outcome (rep_singles two_props_report)))).
  - eexists. vm_compute. reflexivity.
  - vm_compute. left.
  - reflexivity.
Defined.

(** X13: when the selection returns, it returns one row for every
    proposition whose key has no missing column and no other row, the
    propositions in the order of [groupby]; the row of a proposition is its
    offer with the largest defined edge, the first one in the frame when
    several offers have it. *)
Theorem best_one_per_key (df b : list Row) :
  best df = Ok b ->
  row_key <$> b = group_keys true (row_key <$> df) /\
  NoDup (row_key <$> b) /\
  (forall k, k ∈ row_key <$> b <-> k ∈ row_key <$> df /\ key_isna k = false) /\
  (forall r, r ∈ b -> exists i, best_of_key df i r).
Proof. apply best_selects. Qed.

Lemma best_one_per_key_witness :
  NoDup (row_key <$> rep_singles two_props_report).
Proof.
  apply (best_one_per_key (frame two_props) (rep_singles two_props_report)).
  vm_compute. reflexivity.
Defined.

Section RunOutcome.
Context `{FloatOfStr}.

Lemma frame_offers (raw : list Offer) :
  offer <$> frame raw = normalize_book <$> dropna_subset raw.
Proof.
  unfold frame, priced. rewrite <- !list_fmap_compose.
  apply list_fmap_ext. intros i o _. reflexivity.
Qed.

Lemma frame_offer_elem (raw : list Offer) (r : Row) :
  r ∈ frame raw -> exists o, o ∈ dropna_subset raw /\ offer r = normalize_book o.
Proof.
  intros Hr. assert (Ho : offer r ∈ offer <$> frame raw).
  { apply list_elem_of_fmap. exists r. split; [reflexivity|exact Hr]. }
  rewrite frame_offers in Ho. apply list_elem_of_fmap in Ho as (o & Eo & Ho).
  exists o. split; [exact Ho|exact Eo].
Qed.

Lemma frame_elem_offer (raw : list Offer) (o : Offer) :
  o ∈ dropna_subset raw -> exists r, r ∈ frame raw /\ offer r = normalize_book o.
Proof.
  intros Ho. assert (Hn : normalize_book o ∈ offer <$> frame raw).
  { rewrite frame_offers. apply list_elem_of_fmap. exists o. split; [reflexivity|exact Ho]. }
  apply list_elem_of_fmap in Hn as (r & Er & Hr). exists r. split; [exact Hr|].
  symmetry. exact Er.
Qed.

Lemma american_to_prob_parsed (o : pyobj) (q : Q) :
  american_to_prob o = Fin q -> exists x, to_float o = Ok (Fin x).
Proof.
  unfold american_to_prob. destruct (to_float o) as [[x|]|e]; simpl.
  - intros _. exists x. reflexivity.
  - discriminate.
  - discriminate.
Qed.

End RunOutcome.

(** X14: a run that produces its report has found a price for every
    proposition: every valid offer whose key has no missing column shares
    its key with a valid offer whose price reads as a number.  (Where a
    proposition has none, the run stops at the selection.) *)
Theorem completed_run_has_prices `{FloatOfStr} (raw : list Offer) (rep : Report) :
  run raw = Ok rep ->
  forall o, o ∈ dropna_subset raw -> key_isna (key_of o) = false ->
    exists o' x, o' ∈ dropna_subset raw /\ key_of o' = key_of o /\
                 to_float (price o') = Ok (Fin x).
Proof.
  intros Hrep o Ho Hna.
  destruct (run_Ok raw rep Hrep) as (b & Hb & _).
  destruct (frame_elem_offer raw o Ho) as (r & Hr & Er).
  destruct (best_Ok_defined (frame raw) b r Hb Hr) as (r' & e & Hr' & Hk & He).
  { unfold row_key. rewrite Er. exact Hna. }
  destruct (frame_book_prob_defined raw r' e Hr' He) as [q Hq].
  destruct (frame_row raw r' Hr') as (_ & _ & Hbp). rewrite Hbp in Hq.
  destruct (american_to_prob_parsed _ _ Hq) as [x Hx].
  destruct (frame_offer_elem raw r' Hr') as (o' & Ho' & Er').
  exists o', x. split; [exact Ho'|]. split.
  - unfold row_key in Hk. rewrite Er, Er' in Hk. exact Hk.
  - rewrite Er' in Hx. exact Hx.
Qed.

Lemma completed_run_has_prices_witness :
  exists o' x, o' ∈ dropna_subset two_props /\
               key_of o' = key_of (quote "Hill" "BookB" "g2" (-105)) /\
               to_float (price o') = Ok (Fin x).
Proof.
  apply (completed_run_has_prices two_props two_props_report eq_refl).
  - vm_compute. do 4 right. left.
  - reflexivity.
Defined.

(** ** The frame (lines 34-48) *)

Section FrameFacts.
Context `{FloatOfStr}.

Lemma fair_same_key (raw : list Offer) (r r' : Row) :
  r ∈ frame raw -> r' ∈ frame raw -> row_key r = row_key r' ->
  fair_prob r = fair_prob r'.
Proof.
  intros Hr Hr' Hk. destruct (frame_row raw r Hr) as (-> & _).
  destruct (frame_row raw r' Hr') as (-> & _). rewrite Hk. reflexivity.
Qed.

Lemma ev_nan_iff (raw : list Offer) (r : Row) :
  r ∈ frame raw -> (ev_pct r = NaN <-> book_prob r = NaN).
Proof.
  intros Hr. split.
  - intros Hev. destruct (book_prob r) as [q|] eqn:Eq; [|reflexivity].
    destruct (frame_row raw r Hr) as (_ & _ & Hbp). rewrite Eq in Hbp.
    symmetry in Hbp. destruct (american_to_prob_parsed _ _ Hbp) as [x Hx].
    destruct (frame_edge_defined raw r x Hr Hx) as [e He]. congruence.
  - intros Hbp. destruct (ev_pct r) as [e|] eqn:Ee; [|reflexivity].
    destruct (frame_book_prob_defined raw r e Hr Ee) as [q Hq]. congruence.
Qed.
End FrameFacts.

(** X15: the frame has one row for every valid offer, in the order of the
    input, with the key and the price of the offer; offers of the same
    proposition get the same fair probability; and the edge of an offer is
    undefined exactly when its own book probability is, whatever the other
    books quote. *)
Theorem frame_shape `{FloatOfStr} (raw : list Offer) :
  (key_of ∘ offer) <$> frame raw = key_of <$> dropna_subset raw /\
  (price ∘ offer) <$> frame raw = price <$> dropna_subset raw /\
  (forall r r', r ∈ frame raw -> r' ∈ frame raw -> row_key r = row_key r' ->
                fair_prob r = fair_prob r') /\
  (forall r, r ∈ frame raw -> (ev_pct r = NaN <-> book_prob r = NaN)).
Proof.
  split; [|split; [|split]].
  - rewrite (list_fmap_compose offer key_of), frame_offers, <- list_fmap_compose.
    apply list_fmap_ext. intros i o _. reflexivity.
  - rewrite (list_fmap_compose offer price), frame_offers, <- list_fmap_compose.
    apply list_fmap_ext. intros i o _. reflexivity.
  - apply fair_same_key.
  - intros r Hr. apply (ev_nan_iff raw r Hr).
Qed.

Lemma frame_shape_witness :
  ev_pct lone_row = NaN <-> book_prob lone_row = NaN.
Proof.
  apply (proj2 (proj2 (proj2 (frame_shape lone_quote))) lone_row).
  vm_compute. left.
Defined.

(** ** The edge of a best offer (lines 36-51) *)

Lemma defined_elem_Fin (l : list float) (q : Q) : q ∈ defined l <-> Fin q ∈ l.
Proof.
  unfold defined. rewrite list_elem_of_omap. split.
  - intros ([x|] & Hx & [= <-]). exact Hx.
  - intros Hq. exists (Fin q). split; [exact Hq|reflexivity].
Qed.

Lemma median_between (l : list float) (m : Q) :
  median l = Fin m ->
  (exists q, q ∈ defined l /\ q <= m) /\ (exists q, q ∈ defined l /\ m <= q).
Proof.
  unfold median.
  assert (Hmem : forall i a, isort Qlt_bool (defined l) !! i = Some a -> a ∈ defined l).
  { intros i a Hi. apply list_elem_of_lookup_2 in Hi. rewrite isort_perm in Hi. exact Hi. }
  destruct (length (isort Qlt_bool (defined l)) =? 0)%nat; [discriminate|].
  destruct (Nat.odd _).
  - destruct (_ !! _) as [a|] eqn:Ea; [|discriminate]. intros [= <-].
    apply Hmem in Ea. split; exists a; (split; [exact Ea|apply Qle_refl]).
  - destruct (_ !! (_ - 1)%nat) as [a|] eqn:Ea; [|discriminate].
    destruct (_ !! (_ / 2)%nat) as [c|] eqn:Ec; [|discriminate]. intros [= <-].
    apply Hmem in Ea. apply Hmem in Ec.
    assert (Em : Qred ((a + c) / 2) == (1 # 2) * a + (1 # 2) * c)
      by (rewrite Qred_correct; field).
    destruct (Qlt_le_dec a c) as [Hac|Hca].
    + split; [exists a|exists c]; (split; [assumption|lra]).
    + split; [exists c|exists a]; (split; [assumption|lra]).
Qed.

Section BestEdge.
Context `{FloatOfStr}.

Lemma american_to_prob_unit_closed (o : pyobj) (q : Q) :
  american_to_prob o = Fin q -> 0 < q /\ q <= 1.
Proof.
  intros Hq. destruct (american_to_prob_parsed o q Hq) as [x Hx].
  destruct (Qlt_le_dec x 0) as [Hneg|Hpos].
  - destruct (american_to_prob_neg o x Hx Hneg) as (q' & Eq' & Hq').
    assert (q' = q) by congruence. subst q'.
    destruct (Qdiv_unit_interval (- x) (- x + 100)) as [H0 H1]; [lra|lra|].
    rewrite Hq'. split; [exact H0|apply Qlt_le_weak, H1].
  - destruct (american_to_prob_nonneg o x Hx Hpos) as (q' & Eq' & Hq').
    assert (q' = q) by congruence. subst q'. rewrite Hq'. split.
    + apply Qlt_shift_div_l; lra.
    + apply Qle_shift_div_r; lra.
Qed.

Lemma frame_group_member (raw : list Offer) (k : Key) (q : Q) :
  q ∈ defined (omap (select k) (keyed (priced raw))) ->
  exists r', r' ∈ frame raw /\ row_key r' = k /\ book_prob r' = Fin q.
Proof.
  rewrite defined_elem_Fin, list_elem_of_omap. intros ([k' v] & Hkv & Hsel).
  unfold select in Hsel. simpl in Hsel.
  destruct (decide (k' = k)) as [->|]; [|discriminate]. injection Hsel as ->.
  rewrite frame_keyed in Hkv. apply list_elem_of_fmap in Hkv as (r' & [= Ek Ebp] & Hr').
  exists r'. repeat split; [exact Hr'|symmetry; exact Ek|symmetry; exact Ebp].
Qed.

Lemma edge_value (fp bp : float) (e : Q) :
  fmul (fsub fp bp) (lit 100) = Fin e ->
  exists m q, fp = Fin m /\ bp = Fin q /\ e == (m - q) * 100.
Proof.
  destruct fp as [m|], bp as [q|]; simpl; try discriminate.
  intros [= <-]. exists m, q. split; [reflexivity|]. split; [reflexivity|].
  rewrite !Qred_correct. reflexivity.
Qed.

Lemma best_edge_facts (raw : list Offer) (b : list Row) (r : Row) :
  best (frame raw) = Ok b -> r ∈ b ->
  exists q m e, book_prob r = Fin q /\ fair_prob r = Fin m /\ ev_pct r = Fin e /\
    e == (m - q) * 100 /\ 0 < q /\ q <= m /\ m <= 1 /\
    (forall r' q', r' ∈ frame raw -> row_key r' = row_key r ->
                   book_prob r' = Fin q' -> q <= q').
Proof.
  intros Hb Hrb. pose proof (best_rows _ _ _ Hb Hrb) as Hr.
  destruct (best_selects _ _ Hb) as (_ & _ & _ & Hbest).
  destruct (Hbest r Hrb) as (i & Hi & e & He & Hmax).
  destruct (frame_row raw r Hr) as (Hfair & Hev & Hbp).
  rewrite He in Hev. symmetry in Hev.
  destruct (edge_value _ _ _ Hev) as (m & q & Em & Eq & Ee).
  assert (Hmin : forall r' q', r' ∈ frame raw -> row_key r' = row_key r ->
                               book_prob r' = Fin q' -> q <= q').
  { intros r' q' Hr' Hk Hq'.
    destruct (frame_row raw r' Hr') as (_ & Hev' & _).
    rewrite (fair_same_key raw r' r Hr' Hr Hk), Em, Hq' in Hev'. simpl in Hev'.
    apply list_elem_of_lookup in Hr' as [i' Hi'].
    destruct (Hmax i' r' _ Hi' Hk Hev') as [Hle _].
    rewrite !Qred_correct in Hle. change (inject_Z 100) with 100 in Hle. lra. }
  rewrite Hfair in Em.
  destruct (median_between _ _ Em) as [(q1 & Hq1 & Hle1) (q2 & Hq2 & Hle2)].
  destruct (frame_group_member raw _ q1 Hq1) as (r1 & Hr1 & Hk1 & Hb1).
  destruct (frame_group_member raw _ q2 Hq2) as (r2 & Hr2 & Hk2 & Hb2).
  destruct (frame_row raw r2 Hr2) as (_ & _ & Hp2). rewrite Hb2 in Hp2.
  symmetry in Hp2. apply american_to_prob_unit_closed in Hp2 as [_ Hq2le].
  rewrite Eq in Hbp. symmetry in Hbp.
  apply american_to_prob_unit_closed in Hbp as [Hq0 _].
  pose proof (Hmin r1 q1 Hr1 Hk1 Hb1) as Hqq1.
  exists q, m, e. rewrite <- Hfair in Em.
  repeat split; try assumption; lra.
Qed.
End BestEdge.

(** X16: the best offer of a proposition never has a negative edge: its
    book probability, its fair probability and its edge are defined, the
    book probability is at most the fair probability, both lie between 0
    and 1, and the edge lies between 0 and 100. *)
Theorem best_offer_edge `{FloatOfStr} (raw : list Offer) (b : list Row) (r : Row) :
  best (frame raw) = Ok b -> r ∈ b ->
  exists q m e, book_prob r = Fin q /\ fair_prob r = Fin m /\ ev_pct r = Fin e /\
    0 <= q /\ q <= m /\ m <= 1 /\ 0 <= e /\ e <= 100.
Proof.
  intros Hb Hr.
  destruct (best_edge_facts raw b r Hb Hr)
    as (q & m & e & Eq & Em & Ee & He & Hq0 & Hqm & Hm1 & Hmin).
  exists q, m, e. repeat split; try assumption; lra.
Qed.

Lemma best_offer_edge_witness :
  exists q m e, book_prob (row (leg_of "Hill" "g2")) = Fin q /\
    fair_prob (row (leg_of "Hill" "g2")) = Fin m /\
    ev_pct (row (leg_of "Hill" "g2")) = Fin e /\
    0 <= q /\ q <= m /\ m <= 1 /\ 0 <= e /\ e <= 100.
Proof.
  apply (best_offer_edge two_props (rep_singles two_props_report)).
  - vm_compute. reflexivity.
  - vm_compute. left.
Defined.

(** ** Singles and pool: nothing better is left out (lines 53-56) *)

Lemma top_rows_length (P : Row -> bool) (k : nat) (b : list Row) :
  length (take k (sort_values_desc (filter P b))) = Nat.min k (length (filter P b)).
Proof. unfold sort_values_desc. rewrite length_take, isort_length. reflexivity. Qed.

Lemma top_rows_complete (P : Row -> bool) (k : nat) (b : list Row) (r s : Row) :
  (forall r, P r = true -> exists e, ev_pct r = Fin e) ->
  r ∈ b -> P r = true ->
  r ∉ take k (sort_values_desc (filter P b)) ->
  s ∈ take k (sort_values_desc (filter P b)) ->
  length (take k (sort_values_desc (filter P b))) = k /\
  fge (ev_pct s) (ev_pct r) = true.
Proof.
  intros HP Hr HPr Hout Hs.
  pose proof (top_rows_sorted P (length (sort_values_desc (filter P b))) b HP) as Hsorted.
  rewrite take_ge in Hsorted by lia.
  assert (Hin : r ∈ sort_values_desc (filter P b)).
  { unfold sort_values_desc. rewrite isort_perm.
    apply list_elem_of_filter. split; [apply Is_true_true, HPr|exact Hr]. }
  apply list_elem_of_lookup in Hin as [j Hj].
  apply list_elem_of_lookup in Hs as [i Hi].
  pose proof (lookup_lt_Some _ _ _ Hi) as Hik. rewrite length_take in Hik.
  rewrite lookup_take_lt in Hi by lia.
  assert (Hjk : (k <= j)%nat).
  { destruct (le_lt_dec k j) as [Hle|Hlt]; [exact Hle|]. exfalso. apply Hout.
    apply list_elem_of_lookup. exists j. rewrite lookup_take_lt by lia. exact Hj. }
  split.
  - rewrite length_take. pose proof (lookup_lt_Some _ _ _ Hj). lia.
  - apply (StronglySorted_lookup_lt _ _ i j s r Hsorted Hi Hj). lia.
Qed.

(** X18: the singles are the best of the eligible offers: there are six of
    them, or all the eligible ones when these are fewer, and an eligible
    best offer that is not among them has an edge no larger than the edge
    of any single.  The same holds of the candidate pool with its
    threshold of 1 and its size of 40. *)
Theorem top_rows_kept (b : list Row) :
  (length (singles b)
   = Nat.min 6 (length (filter (fun r => in_band_col r && fge (ev_pct r) (lit 2)) b)) /\
   forall r s, r ∈ b -> in_band_col r = true -> fge (ev_pct r) (lit 2) = true ->
               r ∉ singles b -> s ∈ singles b ->
               length (singles b) = 6%nat /\ fge (ev_pct s) (ev_pct r) = true) /\
  (length (best_pool b)
   = Nat.min 40 (length (filter (fun r => fge (ev_pct r) (lit 1)) b)) /\
   forall r s, r ∈ b -> fge (ev_pct r) (lit 1) = true ->
               r ∉ row <$> best_pool b -> s ∈ row <$> best_pool b ->
               length (best_pool b) = 40%nat /\ fge (ev_pct s) (ev_pct r) = true).
Proof.
  assert (Epool : row <$> best_pool b
                  = take 40 (sort_values_desc (filter (fun r => fge (ev_pct r) (lit 1)) b))).
  { unfold best_pool. rewrite <- list_fmap_compose.
    change (row ∘ _) with (@id Row). apply list_fmap_id. }
  split; split.
  - apply top_rows_length.
  - intros r s Hr Hband He. unfold singles.
    apply top_rows_complete; [|exact Hr|rewrite Hband, He; reflexivity].
    intros r0 [_ H2]%andb_prop. apply fge_two in H2 as (e & Ee & _).
    exists e. exact Ee.
  - rewrite <- (length_fmap row), Epool. apply top_rows_length.
  - intros r s Hr He. rewrite <- (length_fmap row (best_pool b)), Epool.
    apply top_rows_complete; [|exact Hr|exact He].
    intros r0 H1. apply fge_one in H1 as (e & Ee & _). exists e. exact Ee.
Qed.

Lemma top_rows_kept_witness :
  length (singles (rep_singles two_props_report))
  = Nat.min 6 (length (filter (fun r => in_band_col r && fge (ev_pct r) (lit 2))
                              (rep_singles two_props_report))).
Proof. apply (proj1 (proj1 (top_rows_kept (rep_singles two_props_report)))). Defined.

(** ** Book names (line 35) *)

Lemma upper_ascii_idem (c : ascii) : upper_ascii (upper_ascii c) = upper_ascii c.
Proof. destruct c as [[] [] [] [] [] [] [] []]; reflexivity. Qed.

Lemma is_space_upper (c : ascii) : is_space (upper_ascii c) = is_space c.
Proof. destruct c as [[] [] [] [] [] [] [] []]; reflexivity. Qed.

Lemma fmap_rev_list {A B : Type} (f : A -> B) (l : list A) : f <$> rev l = rev (f <$> l).
Proof.
  induction l as [|x l IH]; [reflexivity|].
  simpl. rewrite fmap_app, IH. reflexivity.
Qed.

Lemma lstrip_fmap (f : ascii -> ascii) (l : list ascii) :
  (forall c, is_space (f c) = is_space c) -> lstrip (f <$> l) = f <$> lstrip l.
Proof.
  intros Hf. induction l as [|c l IH]; [reflexivity|].
  simpl. rewrite Hf. destruct (is_space c); [exact IH|reflexivity].
Qed.

Lemma strip_fmap (f : ascii -> ascii) (l : list ascii) :
  (forall c, is_space (f c) = is_space c) -> strip (f <$> l) = f <$> strip l.
Proof.
  intros Hf. unfold strip.
  rewrite (lstrip_fmap f l Hf), <- fmap_rev_list, (lstrip_fmap f _ Hf), fmap_rev_list.
  reflexivity.
Qed.

Lemma lstrip_split (l : list ascii) :
  exists sp, l = sp ++ lstrip l /\
    match lstrip l with
    | c :: _ => is_space c = false
    | [] => True
    end.
Proof.
  induction l as [|c l (sp & Esp & Hhd)]; [exists []; split; [reflexivity|exact I]|].
  simpl. destruct (is_space c) eqn:Ec.
  - exists (c :: sp). split; [simpl; rewrite <- Esp; reflexivity|exact Hhd].
  - exists []. split; [reflexivity|exact Ec].
Qed.

Lemma lstrip_clean (l : list ascii) :
  match l with
  | c :: _ => is_space c = false
  | [] => True
  end -> lstrip l = l.
Proof. destruct l as [|c l]; [reflexivity|]. simpl. intros ->. reflexivity. Qed.

Lemma strip_idem (l : list ascii) : strip (strip l) = strip l.
Proof.
  unfold strip. destruct (lstrip_split l) as (sp1 & _ & Hclean1).
  destruct (lstrip_split (rev (lstrip l))) as (sp2 & E2 & Hclean2).
  set (A := lstrip l) in *. set (B := lstrip (rev A)) in *.
  assert (HA : A = rev B ++ rev sp2).
  { rewrite <- (rev_involutive A), E2, rev_app_distr. reflexivity. }
  assert (Hclean : lstrip (rev B) = rev B).
  { apply lstrip_clean. destruct (rev B) as [|c X]; [exact I|].
    rewrite HA in Hclean1. exact Hclean1. }
  rewrite Hclean, rev_involutive. f_equal. apply lstrip_clean, Hclean2.
Qed.

Lemma lstrip_elem (l : list ascii) (c : ascii) : c ∈ lstrip l -> c ∈ l.
Proof.
  destruct (lstrip_split l) as (sp & E & _). intros Hc. rewrite E.
  apply elem_of_app. right. exact Hc.
Qed.

Lemma strip_elem (l : list ascii) (c : ascii) : c ∈ strip l -> c ∈ l.
Proof.
  unfold strip. intros Hc. apply list_elem_of_In in Hc. rewrite <- in_rev in Hc.
  apply list_elem_of_In, lstrip_elem, list_elem_of_In in Hc. rewrite <- in_rev in Hc.
  apply list_elem_of_In, lstrip_elem in Hc. exact Hc.
Qed.

Lemma lstrip_spaces (sp l : list ascii) :
  Forall (fun c => is_space c = true) sp -> lstrip (sp ++ l) = lstrip l.
Proof.
  induction 1 as [|c sp Hc _ IH]; [reflexivity|]. simpl. rewrite Hc. exact IH.
Qed.

Lemma lstrip_app_spaces (l sp : list ascii) :
  Forall (fun c => is_space c = true) sp ->
  lstrip (rev (lstrip (l ++ sp))) = lstrip (rev (lstrip l)).
Proof.
  intros Hsp. induction l as [|c l IH].
  - simpl. rewrite <- (app_nil_r sp) at 1. rewrite (lstrip_spaces sp [] Hsp). reflexivity.
  - simpl. destruct (is_space c); [exact IH|].
    change (c :: l ++ sp) with ((c :: l) ++ sp). rewrite rev_app_distr.
    apply lstrip_spaces. apply Forall_forall. intros x Hx.
    apply list_elem_of_In in Hx. rewrite <- in_rev in Hx. apply list_elem_of_In in Hx.
    rewrite Forall_forall in Hsp. apply Hsp, Hx.
Qed.

Lemma strip_spaces (sp1 l sp2 : list ascii) :
  Forall (fun c => is_space c = true) sp1 -> Forall (fun c => is_space c = true) sp2 ->
  strip (sp1 ++ l ++ sp2) = strip l.
Proof.
  intros H1 H2. unfold strip. rewrite (lstrip_spaces sp1 _ H1).
  rewrite (lstrip_app_spaces l sp2 H2). reflexivity.
Qed.

Lemma upper_strip_idem (s : string) : upper_strip (upper_strip s) = upper_strip s.
Proof.
  unfold upper_strip. rewrite list_ascii_of_string_of_list_ascii.
  rewrite <- (strip_fmap upper_ascii _ is_space_upper), strip_idem.
  rewrite <- list_fmap_compose. f_equal. f_equal.
  apply list_fmap_ext. intros i c _. apply upper_ascii_idem.
Qed.

(** X19: normalising the book name is idempotent; a normalised name has
    no lower-case ASCII letter and no blank at either end; and blanks
    around a name do not change what it is normalised to, so names that
    differ in surrounding blanks only are the same book. *)
Theorem normalize_book_idem (o : Offer) :
  normalize_book (normalize_book o) = normalize_book o /\
  (forall s, book (normalize_book o) = Some s ->
     (forall c, c ∈ list_ascii_of_string s -> upper_ascii c = c) /\
     strip (list_ascii_of_string s) = list_ascii_of_string s) /\
  (forall (sp1 sp2 : list ascii) (s : string),
     Forall (fun c => is_space c = true) sp1 ->
     Forall (fun c => is_space c = true) sp2 ->
     upper_strip (string_of_list_ascii (sp1 ++ list_ascii_of_string s ++ sp2))
     = upper_strip s).
Proof.
  split; [|split].
  - unfold normalize_book. simpl. destruct (book o) as [s|]; simpl; [|reflexivity].
    rewrite upper_strip_idem. reflexivity.
  - intros s. simpl. destruct (book o) as [s0|]; simpl; [|discriminate].
    intros [= <-]. unfold upper_strip. rewrite list_ascii_of_string_of_list_ascii.
    split; [|apply strip_idem].
    intros c Hc%strip_elem. apply list_elem_of_fmap in Hc as (c0 & -> & _).
    apply upper_ascii_idem.
  - intros sp1 sp2 s H1 H2. unfold upper_strip.
    rewrite list_ascii_of_string_of_list_ascii, !fmap_app. f_equal.
    apply strip_spaces; apply Forall_fmap;
      [eapply Forall_impl; [exact H1|]|eapply Forall_impl; [exact H2|]];
      intros c Hc; simpl; rewrite is_space_upper; exact Hc.
Qed.

Lemma normalize_book_idem_witness :
  upper_strip (string_of_list_ascii
                 (list_ascii_of_string " " ++ list_ascii_of_string "BookC"
                  ++ list_ascii_of_string "  "))
  = upper_strip "BookC".
Proof.
  apply (proj2 (proj2 (normalize_book_idem no_team))).
  - repeat constructor.
  - repeat constructor.
Defined.

(** ** Singles and the pool together (lines 53-56) *)

Lemma top_rows_cases (P : Row -> bool) (k : nat) (b : list Row) (r : Row) :
  (forall r, P r = true -> exists e, ev_pct r = Fin e) ->
  r ∈ b -> P r = true ->
  r ∈ take k (sort_values_desc (filter P b)) \/
  (length (take k (sort_values_desc (filter P b))) = k /\
   forall s, s ∈ take k (sort_values_desc (filter P b)) ->
             fge (ev_pct s) (ev_pct r) = true).
Proof.
  intros HP Hr HPr.
  assert (Hin : r ∈ sort_values_desc (filter P b)).
  { unfold sort_values_desc. rewrite isort_perm.
    apply list_elem_of_filter. split; [apply Is_true_true, HPr|exact Hr]. }
  apply list_elem_of_lookup in Hin as [j Hj].
  destruct (le_lt_dec k j) as [Hle|Hlt].
  - right. split.
    + rewrite length_take. pose proof (lookup_lt_Some _ _ _ Hj). lia.
    + intros s [i Hi]%list_elem_of_lookup.
      pose proof (lookup_lt_Some _ _ _ Hi) as Hik. rewrite length_take in Hik.
      rewrite lookup_take_lt in Hi by lia.
      pose proof (top_rows_sorted P (length (sort_values_desc (filter P b))) b HP)
        as Hsorted.
      rewrite take_ge in Hsorted by lia.
      apply (StronglySorted_lookup_lt _ _ i j s r Hsorted Hi Hj). lia.
  - left. apply list_elem_of_lookup. exists j. rewrite lookup_take_lt by lia. exact Hj.
Qed.

(** X20: every single is a candidate for the parlays unless the pool is
    full: a single is a row of the pool, or the pool has its 40 rows and
    each of them has an edge at least as large as the single's. *)
Theorem single_in_pool (b : list Row) (r : Row) :
  r ∈ singles b ->
  r ∈ row <$> best_pool b \/
  (length (best_pool b) = 40%nat /\
   forall l, l ∈ best_pool b -> fge (ev_pct (row l)) (ev_pct r) = true).
Proof.
  intros Hs. destruct (singles_eligible b r Hs) as (Hr & _ & H2).
  assert (H1 : fge (ev_pct r) (lit 1) = true).
  { apply fge_two in H2 as (e & -> & He). simpl. apply Qle_bool_iff.
    change (inject_Z 1) with 1. lra. }
  assert (Epool : row <$> best_pool b
                  = take 40 (sort_values_desc (filter (fun r => fge (ev_pct r) (lit 1)) b))).
  { unfold best_pool. rewrite <- list_fmap_compose.
    change (row ∘ _) with (@id Row). apply list_fmap_id. }
  rewrite <- (length_fmap row (best_pool b)), Epool.
  destruct (top_rows_cases (fun r => fge (ev_pct r) (lit 1)) 40 b r) as [Hin|[Hlen Hall]];
    [|exact Hr|exact H1|left; exact Hin|].
  { intros r0 H0. apply fge_one in H0 as (e & Ee & _). exists e. exact Ee. }
  right. split; [exact Hlen|]. intros l Hl. apply Hall. rewrite <- Epool.
  apply list_elem_of_fmap. exists l. split; [reflexivity|exact Hl].
Qed.

Lemma single_in_pool_witness :
  row (leg_of "Kelce" "g1") ∈ row <$> best_pool (rep_singles two_props_report) \/
  (length (best_pool (rep_singles two_props_report)) = 40%nat /\
   forall l, l ∈ best_pool (rep_singles two_props_report) ->
             fge (ev_pct (row l)) (ev_pct (row (leg_of "Kelce" "g1"))) = true).
Proof.
  apply (single_in_pool (rep_singles two_props_report)).
  vm_compute. right. left.
Defined.
